(** * Sudoku.py: a shallow embedding of the [Sudoku] class

    The Python class keeps two 9x9 grids, [initial_board] and [solution],
    both stored column-wise (the constructor transposes its row-wise input
    with [zip( *board)]).  Every method of the class that the solver relies
    on is embedded below as a Rocq function over that storage:

    - a Python value [int | None] is an [option Z];
    - a list indexed out of range raises [IndexError]: fallible methods
      return a [result];
    - [backtrack_solve] mutates [self.solution] and recurses: it is a
      state-passing function with a bound on the depth of the recursion,
      which Python enforces as well and reports as [RecursionError]. *)

From stdpp Require Import base numbers option list gmap sets.
From stdpp Require Import strings pretty.
From Stdlib Require Import Ascii.

(** ** Exceptions and results *)

Inductive exn : Type :=
  | IndexError
  | RecursionError.

Inductive result (A : Type) : Type :=
  | Ok (a : A)
  | Raise (e : exn).
Arguments Ok {A} a.
Arguments Raise {A} e.

(** Sequencing: an exception of the first computation is the exception of
    the whole. *)
Definition bind {A B} (m : result A) (f : A → result B) : result B :=
  match m with
  | Ok a => f a
  | Raise e => Raise e
  end.

Notation "'let*' x ':=' m 'in' k" := (bind m (λ x, k))
  (at level 10, x name, m at level 100, k at level 200).

(** [l[i]] for a non-negative [i]. *)
Definition index {A} (l : list A) (i : nat) : result A :=
  match l !! i with
  | Some v => Ok v
  | None => Raise IndexError
  end.

(** [[f(x) for x in l]], evaluated left to right. *)
Fixpoint list_comp {A B} (f : A → result B) (l : list A) : result (list B) :=
  match l with
  | [] => Ok []
  | x :: l' => let* y := f x in let* ys := list_comp f l' in Ok (y :: ys)
  end.

(** [l[a:b]] for [0 <= a <= b]: slices never raise, they truncate. *)
Definition slice {A} (a b : nat) (l : list A) : list A := take (b - a) (drop a l).

(** ** The data model *)

(** A cell: [None] or a Python [int]. *)
Abbreviation cell := (option Z) (only parsing).

(** The storage of a grid: a list of columns. *)
Abbreviation grid := (list (list (option Z))) (only parsing).

Record Sudoku : Type := mkSudoku {
  initial_board : grid;
  solution : grid;
}.

(** [range(1, 10)] *)
Definition range_1_10 : list Z := seqZ 1 9.

(** ** [__init__] *)

(** [zip( *rows)]: tuples are produced as long as every row still has an
    element; [zip()] of no rows at all produces nothing.  The first row,
    when there is one, bounds the number of tuples. *)
Fixpoint zip_star_aux {A} (n : nat) (rows : list (list A)) : list (list A) :=
  match n with
  | O => []
  | S n' =>
      match mapM head rows with
      | Some t => t :: zip_star_aux n' (tail <$> rows)
      | None => []
      end
  end.

Definition zip_star {A} (rows : list (list A)) : list (list A) :=
  zip_star_aux (length (default [] (head rows))) rows.

(** [int(e) if e else None]: [None] and [0] are falsy. *)
Definition int_or_None (e : cell) : cell :=
  match e with
  | Some z => if bool_decide (z = 0%Z) then None else Some z
  | None => None
  end.

Definition Sudoku_init (board : list (list cell)) : Sudoku :=
  {| initial_board := (λ column : list cell, int_or_None <$> column) <$> zip_star board;
     solution := (λ column : list cell, int_or_None <$> column) <$> zip_star board |}.

(** ** Region queries *)

Definition get_row (s : Sudoku) (idx : nat) : result (list cell) :=
  list_comp (λ column, index column idx) (solution s).

Definition get_column (s : Sudoku) (idx : nat) : result (list cell) :=
  index (solution s) idx.

Definition get_nine_square (s : Sudoku) (x y : nat) : list (list cell) :=
  slice (3 * y) (3 * y + 3) <$> slice (3 * x) (3 * x + 3) (solution s).

(** ** [check] *)

(** [set(l) == set(range(1, 10))] *)
Definition is_one_to_nine (l : list cell) : bool :=
  bool_decide (list_to_set l =@{gset cell} list_to_set (Some <$> range_1_10)).

Definition check_row (s : Sudoku) (row : nat) : result bool :=
  let* l := get_row s row in Ok (is_one_to_nine l).

Definition check_column (s : Sudoku) (column : nat) : result bool :=
  let* l := get_column s column in Ok (is_one_to_nine l).

Definition check_nine_square (s : Sudoku) (x y : nat) : bool :=
  is_one_to_nine (concat (get_nine_square s x y)).

(** The first [all(...)] of [check]: for each [idx] both checks are
    evaluated, then tested in that order. *)
Fixpoint check_lines (s : Sudoku) (idxs : list nat) : result bool :=
  match idxs with
  | [] => Ok true
  | idx :: rest =>
      let* r := check_row s idx in
      let* c := check_column s idx in
      if r then if c then check_lines s rest else Ok false else Ok false
  end.

Definition check (s : Sudoku) : result bool :=
  let* b := check_lines s (seq 0 9) in
  if b
  then Ok (forallb (λ x, forallb (λ y, check_nine_square s x y) (seq 0 3)) (seq 0 3))
  else Ok false.

(** ** [find_empty] *)

(** The inner loop [for j in range(9)] at a fixed [i]. *)
Fixpoint find_empty_inner (s : Sudoku) (i : nat) (js : list nat)
  : result (option (nat * nat)) :=
  match js with
  | [] => Ok None
  | j :: js' =>
      let* column := index (solution s) j in
      let* v := index column i in
      match v with
      | None => Ok (Some (j, i))
      | Some _ => find_empty_inner s i js'
      end
  end.

(** The outer loop [for i in range(9)]. *)
Fixpoint find_empty_outer (s : Sudoku) (iz : list nat)
  : result (option (nat * nat)) :=
  match iz with
  | [] => Ok None
  | i :: iz' =>
      let* r := find_empty_inner s i (seq 0 9) in
      match r with
      | Some p => Ok (Some p)
      | None => find_empty_outer s iz'
      end
  end.

Definition find_empty (s : Sudoku) : result (option (nat * nat)) :=
  find_empty_outer s (seq 0 9).

(** ** [is_valid] *)

Definition is_valid (s : Sudoku) (num : Z) (pos : nat * nat) : result bool :=
  let* r := get_row s pos.2 in
  if bool_decide (Some num ∈ r) then Ok false else
  let* c := get_column s pos.1 in
  if bool_decide (Some num ∈ c) then Ok false else
  let x := pos.1 / 3 in
  let y := pos.2 / 3 in
  if bool_decide (Some num ∈ concat (get_nine_square s x y)) then Ok false else
  Ok true.

(** ** [backtrack_solve] and [solve] *)

(** The object after entry [row] of the stored column [col] has been
    replaced in place; [initial_board] shares nothing with [solution]. *)
Definition with_cell (s : Sudoku) (col row : nat) (v : cell) : Sudoku :=
  {| initial_board := initial_board s;
     solution := alter (λ column : list cell, <[row := v]> column) col (solution s) |}.

(** [self.solution[col][row] = v] *)
Definition set_cell (s : Sudoku) (col row : nat) (v : cell) : result Sudoku :=
  let* column := index (solution s) col in
  if decide (row < length column)
  then Ok (with_cell s col row v)
  else Raise IndexError.

(** The loop [for num in range(1, 10)] of [backtrack_solve]; [rec] is the
    recursive call.  An exception leaves the object as it is at that
    moment. *)
Fixpoint try_candidates (rec : Sudoku → result bool * Sudoku)
    (row col : nat) (nums : list Z) (s : Sudoku) : result bool * Sudoku :=
  match nums with
  | [] => (Ok false, s)
  | num :: rest =>
      match is_valid s num (col, row) with
      | Raise e => (Raise e, s)
      | Ok false => try_candidates rec row col rest s
      | Ok true =>
          match set_cell s col row (Some num) with
          | Raise e => (Raise e, s)
          | Ok s1 =>
              match rec s1 with
              | (Raise e, s2) => (Raise e, s2)
              | (Ok true, s2) => (Ok true, s2)
              | (Ok false, s2) =>
                  match set_cell s2 col row None with
                  | Raise e => (Raise e, s2)
                  | Ok s3 => try_candidates rec row col rest s3
                  end
              end
          end
      end
  end.

(** [depth] is the number of nested calls of [backtrack_solve] the
    interpreter still allows. *)
Fixpoint backtrack_solve (depth : nat) (s : Sudoku) : result bool * Sudoku :=
  match depth with
  | O => (Raise RecursionError, s)
  | S depth' =>
      match find_empty s with
      | Raise e => (Raise e, s)
      | Ok None => (Ok true, s)
      | Ok (Some (row, col)) =>
          try_candidates (backtrack_solve depth') row col range_1_10 s
      end
  end.

Definition solve (depth : nat) (s : Sudoku) : result (option grid) * Sudoku :=
  match backtrack_solve depth s with
  | (Ok true, s') => (Ok (Some (solution s')), s')
  | (Ok false, s') => (Ok None, s')
  | (Raise e, s') => (Raise e, s')
  end.

(** ** The grid as the callers of the class see it *)

(** [__init__] stores [board[r][c]] as entry [r] of the stored column [c]
    (lemma [cell_at_Sudoku_init] below): cell (r, c) of the 9x9 grid is
    [solution[c][r]].  The outer [None] means "outside the storage". *)
Definition cell_at (g : grid) (r c : nat) : option cell :=
  g !! c ≫= (.!! r).

(** The digit at (r, c), when the cell is inside the grid and not empty. *)
Definition value_at (g : grid) (r c : nat) : option Z :=
  cell_at g r c ≫= id.

(** A storage of 9 columns of 9 cells. *)
Definition well_formed (g : grid) : Prop :=
  length g = 9 ∧ Forall (λ column : list cell, length column = 9) g.

(** What the constructor is meant to receive: 9 rows of 9 entries, each
    [None] or a digit 1-9. *)
Definition valid_entry (e : cell) : Prop :=
  match e with
  | None => True
  | Some d => (1 ≤ d ≤ 9)%Z
  end.

#[global] Instance valid_entry_dec e : Decision (valid_entry e).
Proof. destruct e; simpl; apply _. Defined.

Definition valid_input (board : list (list cell)) : Prop :=
  length board = 9 ∧
  Forall (λ row : list cell, length row = 9 ∧ Forall valid_entry row) board.

#[global] Instance valid_input_dec board : Decision (valid_input board).
Proof. unfold valid_input. apply _. Defined.

(** The call [Sudoku(board)]: no statement of [__init__] raises on a list
    of lists of [int | None], and nothing in it inspects the dimensions or
    the range of the entries. *)
Definition Sudoku_new (board : list (list cell)) : result Sudoku :=
  Ok (Sudoku_init board).

(** [d] occurs in row [r], in column [c], in the 3x3 block of (r, c). *)
Definition in_row (g : grid) (d : Z) (r : nat) : Prop :=
  ∃ c, c < 9 ∧ cell_at g r c = Some (Some d).

Definition in_column (g : grid) (d : Z) (c : nat) : Prop :=
  ∃ r, r < 9 ∧ cell_at g r c = Some (Some d).

Definition in_block (g : grid) (d : Z) (r c : nat) : Prop :=
  ∃ r' c', r' / 3 = r / 3 ∧ c' / 3 = c / 3 ∧ cell_at g r' c' = Some (Some d).

(** The non-empty values of the 27 regions; block (bi, bj) covers rows
    3bi..3bi+2 and columns 3bj..3bj+2. *)
Definition row_values (g : grid) (r : nat) : list Z :=
  omap (λ c, value_at g r c) (seq 0 9).

Definition column_values (g : grid) (c : nat) : list Z :=
  omap (λ r, value_at g r c) (seq 0 9).

Definition block_values (g : grid) (bi bj : nat) : list Z :=
  omap (λ k, value_at g (3 * bi + k / 3) (3 * bj + k mod 3)) (seq 0 9).

(** The values, as a set, are exactly 1..9. *)
Definition complete (vals : list Z) : Prop :=
  list_to_set vals =@{gset Z} list_to_set range_1_10.

(** Each of the 27 regions holds exactly the values 1..9. *)
Definition all_regions_complete (g : grid) : Prop :=
  (∀ r, r < 9 → complete (row_values g r)) ∧
  (∀ c, c < 9 → complete (column_values g c)) ∧
  (∀ bi bj, bi < 3 → bj < 3 → complete (block_values g bi bj)).

(** Some region has fewer than 9 non-empty entries. *)
Definition some_region_short (g : grid) : Prop :=
  (∃ r, r < 9 ∧ length (row_values g r) < 9) ∨
  (∃ c, c < 9 ∧ length (column_values g c) < 9) ∨
  (∃ bi bj, bi < 3 ∧ bj < 3 ∧ length (block_values g bi bj) < 9).

(** Every cell of the 9x9 grid holds a value. *)
Definition filled (g : grid) : Prop :=
  ∀ r c, r < 9 → c < 9 → ∃ d, cell_at g r c = Some (Some d).

(** [full] fills every empty cell of [board], keeps its clues, and passes
    [check]. *)
Definition keeps_clues (board full : list (list cell)) : Prop :=
  Forall2 (Forall2 (λ e f : cell, e = None ∨ e = f)) board full.

Definition legal_completion (board full : list (list cell)) : Prop :=
  valid_input full ∧ keeps_clues board full ∧ check (Sudoku_init full) = Ok true.

(** The scan of [find_empty] in terms of rows and columns: cell (r, c) is
    visited before cell (i, j) when it is in an earlier row, or earlier in
    the same row. *)
Definition precedes_row_major (r c i j : nat) : Prop :=
  r < i ∨ (r = i ∧ c < j).

Definition no_empty_cell (g : grid) : Prop :=
  ∀ r c, r < 9 → c < 9 → cell_at g r c ≠ Some None.

Definition first_empty_row_major (g : grid) (i j : nat) : Prop :=
  i < 9 ∧ j < 9 ∧ cell_at g i j = Some None ∧
  ∀ r c, r < 9 → c < 9 → precedes_row_major r c i j → cell_at g r c ≠ Some None.

(** Some cell off the main diagonal is empty. *)
Definition has_off_diagonal_empty (g : grid) : Prop :=
  ∃ r c, r < 9 ∧ c < 9 ∧ r ≠ c ∧ cell_at g r c = Some None.

(** Every empty cell of [g] is empty in [g']. *)
Definition keeps_empty (g g' : grid) : Prop :=
  ∀ r c, cell_at g r c = Some None → cell_at g' r c = Some None.

(** What a search that cannot succeed guarantees: it does not return
    [True], and when it returns [False] the empty cells are still empty. *)
Definition cannot_succeed (g : grid) (out : result bool * Sudoku) : Prop :=
  out.1 ≠ Ok true ∧
  (out.1 = Ok false →
   well_formed (solution out.2) ∧ keeps_empty g (solution out.2)).

(** *** The statements of the specification that the code does not meet *)

(** The specification's [get_block(x, y)]: the 9 cells of rows 3x..3x+2 and
    columns 3y..3y+2, row by row. *)
Definition block_row_major (g : grid) (x y : nat) : list (option cell) :=
  (λ k, cell_at g (3 * x + k / 3) (3 * y + k mod 3)) <$> seq 0 9.

(** The specification's [find_first_empty]: for each column index 0..8, for
    each row index 0..8, the coordinate (row, col) of the first empty cell. *)
Definition column_major_scan : list (nat * nat) :=
  c ← seq 0 9; r ← seq 0 9; [(r, c)].

Definition find_first_empty_column_major (g : grid) : option (nat * nat) :=
  snd <$> list_find (λ p : nat * nat, cell_at g p.1 p.2 = Some None)
                    column_major_scan.

(** ** Boards *)

Definition digits (rows : list (list Z)) : list (list cell) :=
  (λ row : list Z, Some <$> row) <$> rows.

Definition blank_row : list cell := replicate 9 None.

(** The puzzle of the script's entry point. *)
Definition example_board : list (list cell) :=
  [ [Some 4; Some 1; None; Some 3; None; Some 6; None; Some 9; Some 7];
    [Some 6; None; None; Some 7; None; None; None; Some 5; None];
    blank_row;
    [None; None; Some 9; None; Some 7; Some 3; None; None; Some 2];
    [None; None; Some 8; None; None; None; Some 9; None; None];
    [Some 7; None; None; Some 9; Some 8; None; Some 6; None; None];
    blank_row;
    [None; Some 3; None; None; None; Some 8; None; None; Some 6];
    [Some 9; Some 5; None; Some 6; None; Some 7; None; Some 3; Some 8] ]%Z.

(** A solved grid, and the same grid with the cell of row 0, column 1
    blanked. *)
Definition solved_board : list (list cell) :=
  digits [ [5; 3; 4; 6; 7; 8; 9; 1; 2];
           [6; 7; 2; 1; 9; 5; 3; 4; 8];
           [1; 9; 8; 3; 4; 2; 5; 6; 7];
           [8; 5; 9; 7; 6; 1; 4; 2; 3];
           [4; 2; 6; 8; 5; 3; 7; 9; 1];
           [7; 1; 3; 9; 2; 4; 8; 5; 6];
           [9; 6; 1; 5; 3; 7; 2; 8; 4];
           [2; 8; 7; 4; 1; 9; 6; 3; 5];
           [3; 4; 5; 2; 8; 6; 1; 7; 9] ]%Z.

Definition one_blank_board : list (list cell) :=
  alter (λ row : list cell, <[1 := None]> row) 0 solved_board.

(** The solved grid with the cells (row 0, column 2) and (row 1, column 0)
    blanked. *)
Definition two_blanks_board : list (list cell) :=
  alter (λ row : list cell, <[0 := None]> row) 1
    (alter (λ row : list cell, <[2 := None]> row) 0 solved_board).

(** The solved grid with the diagonal cells (0, 0) and (4, 4) blanked. *)
Definition diagonal_blanks_board : list (list cell) :=
  alter (λ row : list cell, <[4 := None]> row) 4
    (alter (λ row : list cell, <[0 := None]> row) 0 solved_board).

(** Two clues in the first column, the cell right of the first one empty. *)
Definition clue_board : list (list cell) :=
  [ [Some 3; None; None; None; None; None; None; None; None];
    [Some 9; None; None; Some 4; Some 5; Some 6; Some 7; Some 8; None];
    blank_row; blank_row; blank_row; blank_row; blank_row; blank_row;
    blank_row ]%Z.

(** Row 1 holds the digit 1 twice. *)
Definition duplicate_board : list (list cell) :=
  [ [Some 5; None; None; None; None; None; None; None; None];
    [Some 1; Some 1; Some 2; Some 3; Some 4; Some 5; Some 6; Some 7; Some 8];
    blank_row; blank_row; blank_row; blank_row; blank_row; blank_row;
    blank_row ]%Z.

(** Two rows of different lengths, a 10 and a 0. *)
Definition ragged_board : list (list cell) :=
  [ [Some 10; Some 0; Some 3]; [Some 1; Some 2] ]%Z.

(** A full board that breaks every rule. *)
Definition all_ones_board : list (list cell) :=
  replicate 9 (replicate 9 (Some 1%Z)).

(** ** Objects reached during the search *)

(** The example puzzle with 2, and with 3, stored at row 2, column 0. *)
Definition example_2 : Sudoku :=
  with_cell (Sudoku_init example_board) 0 2 (Some 2%Z).

Definition example_3 : Sudoku :=
  with_cell (Sudoku_init example_board) 0 2 (Some 3%Z).

(** [clue_board] with its clue 9 at row 1, column 0 replaced by 1, and
    by 2. *)
Definition clue_1 : Sudoku :=
  with_cell (Sudoku_init clue_board) 0 1 (Some 1%Z).

Definition clue_2 : Sudoku :=
  with_cell (Sudoku_init clue_board) 0 1 (Some 2%Z).

(** Evaluates a method of the class on a concrete object. *)
Ltac run := vm_compute; reflexivity.

(** ** Further vocabulary *)

Definition same_shape (g g' : list (list (option Z))) : Prop :=
  length <$> g = length <$> g'.

Definition entries_valid (g : list (list (option Z))) : Prop :=
  Forall (Forall valid_entry) g.

(** Every cell visited before (i, j) in row-major order holds a value. *)
Definition filled_before (g : list (list (option Z))) (i j : nat) : Prop :=
  ∀ r c, r < 9 → c < 9 → precedes_row_major r c i j →
         ∃ d, cell_at g r c = Some (Some d).

(** Two cells share a row, a column or a block. *)
Definition same_region (r c r' c' : nat) : Prop :=
  r = r' ∨ c = c' ∨ (r / 3 = r' / 3 ∧ c / 3 = c' / 3).

(** No value is stored twice in a row, a column or a block. *)
Definition no_clash (g : list (list (option Z))) : Prop :=
  ∀ r c r' c' d, r < 9 → c < 9 → r' < 9 → c' < 9 → same_region r c r' c' →
    cell_at g r c = Some (Some d) → cell_at g r' c' = Some (Some d) →
    r = r' ∧ c = c'.

(** The same, on the lists of values of the 27 regions. *)
Definition regions_distinct (g : list (list (option Z))) : Prop :=
  Forall (λ r, NoDup (row_values g r)) (seq 0 9) ∧
  Forall (λ c, NoDup (column_values g c)) (seq 0 9) ∧
  Forall (λ b, NoDup (block_values g (b / 3) (b mod 3))) (seq 0 9).

(** Every value of [g] is still there in [g']. *)
Definition keeps_values (g g' : list (list (option Z))) : Prop :=
  ∀ r c d, cell_at g r c = Some (Some d) → cell_at g' r c = Some (Some d).

(** [d] would be accepted at [solution[col][row]] if that cell were empty. *)
Definition free_candidate (s : Sudoku) (col row : nat) (d : Z) : Prop :=
  is_valid (with_cell s col row None) d (col, row) = Ok true.

(** ** [__repr__] *)

(** Python strings are modelled by their UTF-8 encoding. *)

(** [s * n] *)
Fixpoint str_repeat (s : string) (n : nat) : string :=
  match n with
  | O => ""
  | S n' => s +:+ str_repeat s n'
  end.

(** [sep.join(l)] *)
Fixpoint str_join (sep : string) (l : list string) : string :=
  match l with
  | [] => ""
  | [x] => x
  | x :: l' => x +:+ sep +:+ str_join sep l'
  end.

(** The characters [\n] and [\033]. *)
Definition newline : string := String (ascii_of_nat 10) "".
Definition escape : string := String (ascii_of_nat 27) "".

(** [interleave = lambda line, data: f"{line}{data}" * 2 + line] *)
Definition interleave (line data : string) : string :=
  str_repeat (line +:+ data) 2 +:+ line.

Definition horizontal_line
    (left_corner horizontal thin_center_corner center_corner right_corner : string)
  : string :=
  left_corner
  +:+ interleave (interleave (str_repeat horizontal 3) thin_center_corner)
                 center_corner
  +:+ right_corner +:+ newline.

Definition green (x : string) : string := escape +:+ "[32m" +:+ x +:+ escape +:+ "[0m".
Definition yellow (x : string) : string := escape +:+ "[33m" +:+ x +:+ escape +:+ "[0m".

(** The format string of the table, before [%]. *)
Definition table_template : string :=
  horizontal_line "╔" "═" "╤" "╦" "╗"
  +:+ interleave
        (interleave (str_repeat "║ %s │ %s │ %s " 3 +:+ "║" +:+ newline)
                    (horizontal_line "╟" "─" "┼" "╫" "╢"))
        (horizontal_line "╠" "═" "╪" "╬" "╣")
  +:+ horizontal_line "╚" "═" "╧" "╩" "╝".

(** [template % tuple(args)] for a template whose directives are [%s] and
    [%%]; the arguments have been converted with [str] already.  [None] is
    the exception of the operator: too few or too many arguments
    ([TypeError]) or another directive. *)
Fixpoint percent_format (template : string) (args : list string) : option string :=
  match template with
  | "" => match args with [] => Some "" | _ :: _ => None end
  | String "%" (String "s" rest) =>
      match args with
      | a :: args' => (λ out, a +:+ out) <$> percent_format rest args'
      | [] => None
      end
  | String "%" (String "%" rest) => String "%" <$> percent_format rest args
  | String "%" _ => None
  | String c rest => String c <$> percent_format rest args
  end.

(** One argument of the format, after [str]: the clue if there is one,
    else the value of the working grid in green if it is truthy, else a
    blank. *)
Definition render_cell (x_solved x_initial : option Z) : string :=
  match x_initial with
  | None =>
      match x_solved with
      | Some z => if bool_decide (z = 0%Z) then " " else green (pretty z)
      | None => " "
      end
  | Some z => pretty z
  end.

(** The generator of the arguments: rows of the two grids, transposed back
    with [zip( *...)] and paired with [zip]. *)
Definition rendered_cells (s : Sudoku) : list string :=
  '(row_solved, row_initial) ← zip (zip_star (solution s)) (zip_star (initial_board s));
  '(x_solved, x_initial) ← zip row_solved row_initial;
  [render_cell x_solved x_initial].

(** [str.splitlines()] on the UTF-8 encoding.  The line boundaries are
    LF, CR, CR LF, VT, FF, FS, GS, RS (one byte each), NEL (bytes 194 133),
    LINE SEPARATOR and PARAGRAPH SEPARATOR (bytes 226 128 168 and
    226 128 169); [line] is the current line, reversed. *)
Definition is_boundary (c : ascii) : bool :=
  bool_decide (nat_of_ascii c ∈ [10; 11; 12; 13; 28; 29; 30]).

Fixpoint splitlines_go (line : list ascii) (text : string) : list string :=
  let flush := String.string_of_list_ascii (reverse line) in
  match text with
  | "" => match line with [] => [] | _ :: _ => [flush] end
  | String c rest =>
      if bool_decide (nat_of_ascii c = 13) then
        match rest with
        | String c' rest' =>
            if bool_decide (nat_of_ascii c' = 10)
            then flush :: splitlines_go [] rest'
            else flush :: splitlines_go [] rest
        | "" => [flush]
        end
      else if is_boundary c then flush :: splitlines_go [] rest
      else if bool_decide (nat_of_ascii c = 194) then
        match rest with
        | String c' rest' =>
            if bool_decide (nat_of_ascii c' = 133)
            then flush :: splitlines_go [] rest'
            else splitlines_go (c :: line) rest
        | "" => splitlines_go (c :: line) rest
        end
      else if bool_decide (nat_of_ascii c = 226) then
        match rest with
        | String c1 (String c2 rest') =>
            if bool_decide (nat_of_ascii c1 = 128 ∧ nat_of_ascii c2 ∈ [168; 169])
            then flush :: splitlines_go [] rest'
            else splitlines_go (c :: line) rest
        | _ => splitlines_go (c :: line) rest
        end
      else splitlines_go (c :: line) rest
  end.

(** [__repr__]; [None] when the [%] operator raises. *)
Definition x_coords : string :=
  str_repeat " " 4 +:+ str_join (str_repeat " " 3) ((λ i : nat, yellow (pretty i)) <$> seq 0 9).

Definition label_row (i : nat) (row : string) : string :=
  (if bool_decide (i mod 2 = 0) then " " else yellow (pretty (i / 2)))
  +:+ " " +:+ row.

Definition repr (s : Sudoku) : option string :=
  table ← percent_format table_template (rendered_cells s);
  Some (str_join newline (x_coords :: imap label_row (splitlines_go [] table))).

(** The object [solve] leaves when the blanks of [diagonal_blanks_board]
    have been filled in. *)
Definition diagonal_solved : Sudoku :=
  {| initial_board := initial_board (Sudoku_init diagonal_blanks_board);
     solution := solution (Sudoku_init solved_board) |}.

(** The number of empty cells on the main diagonal. *)
Definition diagonal_empties (g : list (list (option Z))) : nat :=
  length (filter (λ i, cell_at g i i = Some None) (seq 0 9)).

(** [full] is a solved 9x9 grid that holds every value of [g]. *)
Definition completes (g full : list (list (option Z))) : Prop :=
  well_formed full ∧ filled full ∧ no_clash full ∧ entries_valid full ∧
  keeps_values g full.

(** On a grid whose empty cells all lie on the diagonal: a failed search
    leaves the object as it was, a successful one keeps every value. *)
Definition diagonal_outcome (s : Sudoku) (out : result bool * Sudoku) : Prop :=
  match out with
  | (Ok false, s') => s' = s
  | (Ok true, s') =>
      initial_board s' = initial_board s ∧
      keeps_values (solution s) (solution s')
  | (Raise _, _) => True
  end.

(** * Properties *)

(** ** Results and list access *)

Lemma index_Ok {A} (l : list A) i v : index l i = Ok v ↔ l !! i = Some v.
Proof. unfold index. destruct (l !! i); split; congruence. Qed.

Lemma list_comp_Ok {A B} (f : A → result B) l ys :
  list_comp f l = Ok ys ↔ Forall2 (λ x y, f x = Ok y) l ys.
Proof.
  revert ys. induction l as [|x l IH]; intros ys; simpl.
  - split; [intros [= <-]; constructor | by inversion 1].
  - destruct (f x) as [y|e] eqn:Hx; simpl.
    + destruct (list_comp f l) as [zs|e] eqn:Hl; simpl.
      * split.
        -- intros [= <-]. constructor; [done | by apply IH].
        -- inversion 1 as [|? y' ? zs' Hy Hzs]; subst.
           apply IH in Hzs. congruence.
      * split; [done |].
        inversion 1 as [|? y' ? zs' Hy Hzs]; subst.
        apply IH in Hzs. congruence.
    + split; [done |]. inversion 1; congruence.
Qed.

Lemma lookup_slice {A} (l : list A) a k i :
  i < k → slice a (a + k) l !! i = l !! (a + i).
Proof.
  intros Hi. unfold slice. replace (a + k - a) with k by lia.
  by rewrite lookup_take_lt, lookup_drop.
Qed.

Lemma length_slice {A} (l : list A) a k :
  a + k ≤ length l → length (slice a (a + k) l) = k.
Proof.
  intros Hl. unfold slice. rewrite length_take, length_drop. lia.
Qed.

(** ** Well-formed storage *)

Lemma well_formed_lookup g c :
  well_formed g → c < 9 → ∃ column, g !! c = Some column ∧ length column = 9.
Proof.
  intros [Hlen Hall] Hc.
  destruct (lookup_lt_is_Some_2 g c) as [column Hcol]; [lia |].
  exists column. split; [done |].
  by apply (Forall_lookup_1 _ _ _ _ Hall Hcol).
Qed.

Lemma well_formed_cell_at g r c :
  well_formed g → r < 9 → c < 9 → ∃ v, cell_at g r c = Some v.
Proof.
  intros Hwf Hr Hc.
  destruct (well_formed_lookup g c Hwf Hc) as (column & Hcol & Hlen).
  destruct (lookup_lt_is_Some_2 column r) as [v Hv]; [lia |].
  exists v. unfold cell_at. by rewrite Hcol.
Qed.

(** ** The region queries *)

Lemma get_row_lookup s r l c :
  get_row s r = Ok l → l !! c = cell_at (solution s) r c.
Proof.
  unfold get_row, cell_at. rewrite list_comp_Ok. intros Hall.
  revert c. induction Hall as [|column v g l' Hv _ IH]; intros c.
  - done.
  - destruct c as [|c]; simpl.
    + by apply index_Ok in Hv.
    + apply IH.
Qed.

Lemma get_row_Ok s r :
  well_formed (solution s) → r < 9 →
  ∃ l, get_row s r = Ok l ∧ length l = 9.
Proof.
  intros [Hlen Hall] Hr. unfold get_row.
  assert (∃ l, Forall2 (λ column v, index column r = Ok v) (solution s) l)
    as [l Hl].
  { clear Hlen. induction Hall as [|column g Hcol _ [l IH]].
    - exists []. constructor.
    - destruct (lookup_lt_is_Some_2 column r) as [v Hv]; [lia |].
      exists (v :: l). constructor; [by apply index_Ok | done]. }
  exists l. split; [by apply list_comp_Ok |].
  by rewrite <- (Forall2_length _ _ _ Hl).
Qed.

Lemma get_column_Ok s c :
  well_formed (solution s) → c < 9 →
  ∃ l, get_column s c = Ok l ∧ length l = 9 ∧
       ∀ r, l !! r = cell_at (solution s) r c.
Proof.
  intros Hwf Hc.
  destruct (well_formed_lookup _ c Hwf Hc) as (column & Hcol & Hlen).
  exists column. split; [unfold get_column; by apply index_Ok |]. split; [done |].
  intros r. unfold cell_at. by rewrite Hcol.
Qed.

Lemma get_nine_square_lookup s x y m k :
  m < 3 → k < 3 →
  get_nine_square s x y !! m ≫= (.!! k)
  = cell_at (solution s) (3 * y + k) (3 * x + m).
Proof.
  intros Hm Hk. unfold get_nine_square, cell_at.
  rewrite list_lookup_fmap, (lookup_slice _ (3 * x) 3 m Hm).
  destruct (solution s !! (3 * x + m)) as [column|]; [| done].
  exact (lookup_slice column (3 * y) 3 k Hk).
Qed.

Lemma get_nine_square_shape s x y :
  well_formed (solution s) → x < 3 → y < 3 →
  length (get_nine_square s x y) = 3 ∧
  Forall (λ seg : list cell, length seg = 3) (get_nine_square s x y).
Proof.
  intros [Hlen Hall] Hx Hy. unfold get_nine_square. split.
  - rewrite length_fmap. apply length_slice. lia.
  - apply Forall_fmap. unfold slice at 2. apply Forall_take, Forall_drop.
    eapply Forall_impl; [exact Hall |]. intros column Hcol.
    cbv beta in *. apply length_slice. lia.
Qed.

(** ** The constructor *)

Lemma mapM_fmap_compose {A B C} (f : B → option C) (g : A → B) (l : list A) :
  mapM f (g <$> l) = mapM (f ∘ g) l.
Proof.
  induction l as [|x l IH]; [done |]. csimpl.
  apply option_bind_ext; [| done]. intros y.
  apply option_bind_ext; [done | exact IH].
Qed.

Lemma length_tail {A} (l : list A) : length (tail l) = length l - 1.
Proof. destruct l; simpl; lia. Qed.

Lemma mapM_head_is_Some {A} (rows : list (list A)) :
  Forall (λ row, 0 < length row) rows → is_Some (mapM head rows).
Proof.
  intros Hall. apply mapM_is_Some. eapply Forall_impl; [exact Hall |].
  intros [|x row] Hlen; simpl in *; [lia | by eexists].
Qed.

Lemma mapM_head_Some_length {A} (rows : list (list A)) t :
  mapM head rows = Some t → Forall (λ row, 0 < length row) rows.
Proof.
  intros Ht. apply mapM_Some_1 in Ht.
  induction Ht as [|row x rows' t' Hx _ IH]; constructor; [| done].
  destruct row; simplify_eq/=; lia.
Qed.

Lemma lookup_zip_star_aux {A} n (rows : list (list A)) c :
  c < n → Forall (λ row, c < length row) rows →
  zip_star_aux n rows !! c = mapM (.!! c) rows.
Proof.
  revert rows c. induction n as [|n IH]; intros rows c Hc Hall; [lia |].
  simpl. destruct (mapM_head_is_Some rows) as [t Ht].
  { eapply Forall_impl; [exact Hall |]. intros row ?. simpl in *. lia. }
  rewrite Ht. destruct c as [|c]; simpl.
  - rewrite <- Ht. apply mapM_ext. intros row. apply head_lookup.
  - rewrite IH, mapM_fmap_compose.
    + apply mapM_ext. intros row. simpl. apply lookup_tail.
    + lia.
    + apply Forall_fmap. eapply Forall_impl; [exact Hall |].
      intros row Hrow. simpl in *. rewrite length_tail. lia.
Qed.

Lemma length_zip_star_aux_le {A} n (rows : list (list A)) :
  length (zip_star_aux n rows) ≤ n ∧
  Forall (λ row, length (zip_star_aux n rows) ≤ length row) rows.
Proof.
  revert rows. induction n as [|n IH]; intros rows; simpl.
  - split; [lia |]. apply Forall_forall. intros; lia.
  - destruct (mapM head rows) as [t|] eqn:Ht; simpl.
    + destruct (IH (tail <$> rows)) as [Hle Hall]. split; [lia |].
      apply mapM_head_Some_length in Ht.
      rewrite Forall_fmap in Hall.
      eapply Forall_impl; [exact (proj2 (Forall_and _ _) (conj Ht Hall)) |].
      intros row [Hpos Hrow]. simpl in *. rewrite length_tail in Hrow. lia.
    + split; [lia |]. apply Forall_forall. intros; lia.
Qed.

Lemma length_zip_star_aux {A} n (rows : list (list A)) :
  Forall (λ row, n ≤ length row) rows →
  length (zip_star_aux n rows) = n ∧
  Forall (λ t, length t = length rows) (zip_star_aux n rows).
Proof.
  revert rows. induction n as [|n IH]; intros rows Hall; simpl; [done |].
  destruct (mapM_head_is_Some rows) as [t Ht].
  { eapply Forall_impl; [exact Hall |]. intros row ?. simpl in *. lia. }
  rewrite Ht. destruct (IH (tail <$> rows)) as [Hlen Hts].
  { apply Forall_fmap. eapply Forall_impl; [exact Hall |].
    intros row ?. simpl in *. rewrite length_tail. lia. }
  simpl. split; [by rewrite Hlen |]. constructor.
  - symmetry. by apply (length_mapM head).
  - by rewrite length_fmap in Hts.
Qed.

(** The entry [board[r][c]] ends up at (r, c), as [int_or_None] leaves it,
    whenever every row is long enough for column [c] to be produced. *)
Lemma cell_at_Sudoku_init board r c row e :
  board !! r = Some row → row !! c = Some e →
  Forall (λ row' : list cell, c < length row') board →
  cell_at (solution (Sudoku_init board)) r c = Some (int_or_None e).
Proof.
  intros Hrow He Hall. unfold cell_at, Sudoku_init, zip_star. simpl.
  rewrite list_lookup_fmap, lookup_zip_star_aux; [| | done].
  - destruct (mapM (.!! c) board) as [t|] eqn:Ht.
    + simpl. rewrite list_lookup_fmap.
      apply mapM_Some_1 in Ht.
      destruct (Forall2_lookup_l _ _ _ _ _ Ht Hrow) as (e' & -> & He').
      simpl. congruence.
    + apply mapM_None_1, Exists_exists in Ht as (row' & Hin & Hnone).
      apply lookup_ge_None in Hnone.
      apply (proj1 (Forall_forall _ _) Hall) in Hin. lia.
  - destruct board as [|row0 board']; [done |]. simpl.
    by apply Forall_inv in Hall.
Qed.

Lemma well_formed_Sudoku_init board :
  length board = 9 → Forall (λ row : list cell, length row = 9) board →
  well_formed (solution (Sudoku_init board)).
Proof.
  intros Hlen Hall. unfold well_formed, Sudoku_init, zip_star. simpl.
  destruct board as [|row0 board']; [done |].
  pose proof (Forall_inv Hall) as Hrow0. simpl in Hrow0 |- *. rewrite Hrow0.
  destruct (length_zip_star_aux 9 (row0 :: board')) as [Hn Hts].
  { eapply Forall_impl; [exact Hall |]. intros row ?. simpl in *. lia. }
  rewrite length_fmap. split; [done |].
  apply Forall_fmap. eapply Forall_impl; [exact Hts |].
  intros t Ht. simpl in *. rewrite length_fmap. lia.
Qed.

Lemma valid_input_dimensions board :
  valid_input board →
  length board = 9 ∧ Forall (λ row : list cell, length row = 9) board.
Proof.
  intros [Hlen Hall]. split; [done |].
  eapply Forall_impl; [exact Hall |]. by intros row [? _].
Qed.

(** C9, as the code has it: the constructor accepts every board.  It stores
    two equal grids with no more columns than the shortest row has entries,
    and an entry of a column that is produced is stored as [int_or_None]
    leaves it: [None] and 0 become an empty cell, any other integer is
    stored as it is, whatever its range. *)
Theorem Sudoku_new_accepts_every_board (board : list (list cell)) :
  (∃ s, Sudoku_new board = Ok s ∧
        initial_board s = solution s ∧
        Forall (λ row : list cell, length (solution s) ≤ length row) board ∧
        ∀ r c row e,
          board !! r = Some row → row !! c = Some e →
          Forall (λ row' : list cell, c < length row') board →
          cell_at (solution s) r c = Some (int_or_None e)) ∧
  int_or_None None = None ∧
  int_or_None (Some 0%Z) = None ∧
  ∀ z, z ≠ 0%Z → int_or_None (Some z) = Some z.
Proof.
  split; [| split; [done | split; [done |]]].
  - exists (Sudoku_init board). repeat split.
    + unfold Sudoku_init, zip_star. simpl. rewrite length_fmap.
      apply length_zip_star_aux_le.
    + intros r c row e. apply cell_at_Sudoku_init.
  - intros z Hz. simpl. by rewrite bool_decide_eq_false_2.
Qed.

(** C9, as stated, fails: a board of two rows of three and two entries,
    holding a 10 and a 0, is accepted; the third entry of the first row is
    dropped, the 10 is stored and the 0 becomes an empty cell. *)
Lemma Sudoku_new_keeps_ragged_board :
  ¬ valid_input ragged_board ∧
  Sudoku_new ragged_board
  = Ok {| initial_board := [[Some 10%Z; Some 1%Z]; [None; Some 2%Z]];
          solution := [[Some 10%Z; Some 1%Z]; [None; Some 2%Z]] |}.
Proof. split; [by intros [[=] _] | reflexivity]. Qed.

(** ** Rows, columns and blocks *)

(** C7, as the code has it: [get_row(r)] is row [r] from left to right,
    [get_column(c)] is column [c] from top to bottom, and
    [get_nine_square(x, y)] is three lists, one for each of the columns
    3x..3x+2, each holding the cells of rows 3y..3y+2 from top to bottom. *)
Theorem region_queries_order (s : Sudoku) (r c x y : nat) :
  well_formed (solution s) → r < 9 → c < 9 → x < 3 → y < 3 →
  (∃ l, get_row s r = Ok l ∧ length l = 9 ∧
        ∀ c', c' < 9 → l !! c' = cell_at (solution s) r c') ∧
  (∃ l, get_column s c = Ok l ∧ length l = 9 ∧
        ∀ r', r' < 9 → l !! r' = cell_at (solution s) r' c) ∧
  length (get_nine_square s x y) = 3 ∧
  ∀ m, m < 3 →
    ∃ seg, get_nine_square s x y !! m = Some seg ∧ length seg = 3 ∧
           ∀ k, k < 3 → seg !! k = cell_at (solution s) (3 * y + k) (3 * x + m).
Proof.
  intros Hwf Hr Hc Hx Hy. split; [| split; [| split]].
  - destruct (get_row_Ok s r Hwf Hr) as (l & Hl & Hlen).
    exists l. repeat split; [done..|]. intros c' _. by apply get_row_lookup.
  - destruct (get_column_Ok s c Hwf Hc) as (l & Hl & Hlen & Hcells).
    exists l. repeat split; [done..|]. intros r' _. apply Hcells.
  - by apply get_nine_square_shape.
  - intros m Hm.
    destruct (get_nine_square_shape s x y Hwf Hx Hy) as [Hlen Hsegs].
    destruct (lookup_lt_is_Some_2 (get_nine_square s x y) m) as [seg Hseg];
      [lia |].
    exists seg. split; [done |]. split.
    + by apply (Forall_lookup_1 _ _ _ _ Hsegs Hseg).
    + intros k Hk. rewrite <- (get_nine_square_lookup s x y m k Hm Hk).
      by rewrite Hseg.
Qed.

Lemma region_queries_order_witness :
  (∃ l, get_row (Sudoku_init example_board) 0 = Ok l ∧ length l = 9 ∧
        ∀ c', c' < 9 →
              l !! c' = cell_at (solution (Sudoku_init example_board)) 0 c') ∧
  (∃ l, get_column (Sudoku_init example_board) 3 = Ok l ∧ length l = 9 ∧
        ∀ r', r' < 9 →
              l !! r' = cell_at (solution (Sudoku_init example_board)) r' 3) ∧
  length (get_nine_square (Sudoku_init example_board) 0 1) = 3 ∧
  ∀ m, m < 3 →
    ∃ seg, get_nine_square (Sudoku_init example_board) 0 1 !! m = Some seg ∧
           length seg = 3 ∧
           ∀ k, k < 3 →
                seg !! k = cell_at (solution (Sudoku_init example_board))
                                   (3 * 1 + k) (3 * 0 + m).
Proof.
  apply (region_queries_order (Sudoku_init example_board) 0 3 0 1);
    [apply well_formed_Sudoku_init; [reflexivity | repeat constructor]
    | lia..].
Defined.

(** C7, as stated, fails on the example puzzle: block (0, 1) of the
    specification covers rows 0..2 and columns 3..5, which hold 3, 6 and 7;
    [get_nine_square(0, 1)] returns the cells of columns 0..2 and rows
    3..5, which hold 7, 9 and 8. *)
Lemma get_nine_square_not_row_major :
  concat (get_nine_square (Sudoku_init example_board) 0 1)
  = [None; None; Some 7%Z; None; None; None; Some 9%Z; Some 8%Z; None] ∧
  block_row_major (solution (Sudoku_init example_board)) 0 1
  = Some <$> [Some 3%Z; None; Some 6%Z; Some 7%Z; None; None; None; None; None] ∧
  Some <$> concat (get_nine_square (Sudoku_init example_board) 0 1)
  ≠ block_row_major (solution (Sudoku_init example_board)) 0 1.
Proof. split; [reflexivity |]. split; [reflexivity |]. by vm_compute. Qed.

(** ** [is_valid] *)

Lemma elem_of_get_row s r l v :
  get_row s r = Ok l → length l = 9 →
  v ∈ l ↔ ∃ c, c < 9 ∧ cell_at (solution s) r c = Some v.
Proof.
  intros Hl Hlen. rewrite list_elem_of_lookup. split.
  - intros [c Hc]. exists c. split.
    + apply lookup_lt_Some in Hc. lia.
    + by rewrite <- (get_row_lookup s r l c Hl).
  - intros (c & _ & Hc). exists c. by rewrite (get_row_lookup s r l c Hl).
Qed.

Lemma elem_of_concat {A} (x : A) (ls : list (list A)) :
  x ∈ concat ls ↔ ∃ l, x ∈ l ∧ l ∈ ls.
Proof.
  induction ls as [|l ls IH]; simpl.
  - split; [by intros ?%elem_of_nil | by intros (l & _ & ?%elem_of_nil)].
  - rewrite elem_of_app, IH. split.
    + intros [Hl | (l' & Hx & Hl')].
      * exists l. split; [done | by left].
      * exists l'. split; [done | by right].
    + intros (l' & Hx & [-> | Hl']%elem_of_cons); [by left |].
      right. by exists l'.
Qed.

Lemma elem_of_nine_square s x y v :
  v ∈ concat (get_nine_square s x y) ↔
  ∃ m k, m < 3 ∧ k < 3 ∧ cell_at (solution s) (3 * y + k) (3 * x + m) = Some v.
Proof.
  rewrite elem_of_concat. split.
  - intros (seg & Hv & Hseg).
    apply list_elem_of_lookup in Hseg as [m Hm].
    apply list_elem_of_lookup in Hv as [k Hk].
    assert (m < 3 ∧ k < 3) as [Hm3 Hk3].
    { unfold get_nine_square in Hm.
      apply list_lookup_fmap_Some in Hm as (column & -> & Hcol).
      unfold slice in Hcol, Hk.
      apply lookup_take_Some in Hcol as [_ ?].
      apply lookup_take_Some in Hk as [_ ?]. lia. }
    exists m, k. repeat split; [done..|].
    rewrite <- (get_nine_square_lookup s x y m k Hm3 Hk3). by rewrite Hm.
  - intros (m & k & Hm & Hk & Hcell).
    rewrite <- (get_nine_square_lookup s x y m k Hm Hk) in Hcell.
    destruct (get_nine_square s x y !! m) as [seg|] eqn:Hseg; [| done].
    exists seg. split; apply list_elem_of_lookup; eauto.
Qed.

Lemma in_block_iff g d r c :
  in_block g d r c ↔
  ∃ m k, m < 3 ∧ k < 3 ∧
         cell_at g (3 * (r / 3) + k) (3 * (c / 3) + m) = Some (Some d).
Proof.
  split.
  - intros (r' & c' & Hr & Hc & Hcell).
    exists (c' mod 3), (r' mod 3).
    split; [apply Nat.mod_upper_bound; lia |].
    split; [apply Nat.mod_upper_bound; lia |].
    rewrite <- Hr, <- Hc, <- !Nat.div_mod_eq. done.
  - intros (m & k & Hm & Hk & Hcell).
    exists (3 * (r / 3) + k), (3 * (c / 3) + m). split; [| split; [| done]].
    + rewrite Nat.mul_comm, Nat.div_add_l, (Nat.div_small k 3); lia.
    + rewrite Nat.mul_comm, Nat.div_add_l, (Nat.div_small m 3); lia.
Qed.

(** C5: on a 9x9 grid, [is_valid(d, (c, r))] returns, and it returns
    [False] exactly when [d] is already stored in row [r], in column [c] or
    in the block of (r, c).  The position is passed as (column, row), as
    [backtrack_solve] does. *)
Theorem is_valid_false_iff (s : Sudoku) (d : Z) (r c : nat) :
  well_formed (solution s) → (1 ≤ d ≤ 9)%Z → r < 9 → c < 9 →
  ∃ b, is_valid s d (c, r) = Ok b ∧
       (b = false ↔ in_row (solution s) d r ∨ in_column (solution s) d c ∨
                    in_block (solution s) d r c).
Proof.
  intros Hwf _ Hr Hc. unfold is_valid. simpl.
  destruct (get_row_Ok s r Hwf Hr) as (lr & Hlr & Hlenr).
  destruct (get_column_Ok s c Hwf Hc) as (lc & Hlc & Hlenc & Hcells).
  rewrite Hlr. simpl.
  pose proof (elem_of_get_row s r lr (Some d) Hlr Hlenr) as Hrow.
  assert (Some d ∈ lc ↔ in_column (solution s) d c) as Hcol.
  { rewrite list_elem_of_lookup. unfold in_column. split.
    - intros [r' Hr']. exists r'. split.
      + apply lookup_lt_Some in Hr'. lia.
      + by rewrite <- Hcells.
    - intros (r' & _ & Hr'). exists r'. by rewrite Hcells. }
  pose proof (elem_of_nine_square s (c / 3) (r / 3) (Some d)) as Hblk.
  rewrite <- in_block_iff in Hblk.
  case_bool_decide as H1.
  { exists false. split; [done |]. split; [| done]. intros _. left.
    by apply Hrow. }
  rewrite Hlc. simpl. case_bool_decide as H2.
  { exists false. split; [done |]. split; [| done]. intros _. right. left.
    by apply Hcol. }
  case_bool_decide as H3.
  { exists false. split; [done |]. split; [| done]. intros _. right. right.
    by apply Hblk. }
  exists true. split; [done |]. split; [done |].
  intros [Hin | [Hin | Hin]]; exfalso.
  - by apply H1, Hrow.
  - by apply H2, Hcol.
  - by apply H3, Hblk.
Qed.

Lemma is_valid_false_iff_witness :
  ∃ b, is_valid (Sudoku_init example_board) 7 (2, 0) = Ok b ∧
       (b = false ↔ in_row (solution (Sudoku_init example_board)) 7 0 ∨
                    in_column (solution (Sudoku_init example_board)) 7 2 ∨
                    in_block (solution (Sudoku_init example_board)) 7 0 2).
Proof.
  apply (is_valid_false_iff (Sudoku_init example_board) 7 0 2);
    [apply well_formed_Sudoku_init; [reflexivity | repeat constructor]
    | lia..].
Defined.

(** ** [find_empty] *)

Lemma find_empty_inner_spec s i a n :
  well_formed (solution s) → i < 9 → a + n ≤ 9 →
  match find_empty_inner s i (seq a n) with
  | Ok None => ∀ j, a ≤ j < a + n → cell_at (solution s) i j ≠ Some None
  | Ok (Some p) =>
      ∃ j, p = (j, i) ∧ a ≤ j < a + n ∧ cell_at (solution s) i j = Some None ∧
           ∀ j', a ≤ j' < j → cell_at (solution s) i j' ≠ Some None
  | Raise _ => False
  end.
Proof.
  intros Hwf Hi. revert a. induction n as [|n IH]; intros a Ha; simpl.
  - intros j ?. lia.
  - destruct (well_formed_lookup _ a Hwf) as (column & Hcol & Hlen); [lia |].
    destruct (lookup_lt_is_Some_2 column i) as [v Hv]; [lia |].
    assert (cell_at (solution s) i a = Some v) as Hcell.
    { unfold cell_at. by rewrite Hcol. }
    unfold index. rewrite Hcol. simpl. rewrite Hv. simpl.
    destruct v as [d|].
    + specialize (IH (S a) ltac:(lia)).
      destruct (find_empty_inner s i (seq (S a) n)) as [[p|]|e]; [| | done].
      * destruct IH as (j & -> & Hj & Hempty & Hbefore).
        exists j. repeat split; [lia.. | done |].
        intros j' Hj'. destruct (decide (j' = a)) as [-> | Hne].
        -- by rewrite Hcell.
        -- apply Hbefore. lia.
      * intros j Hj. destruct (decide (j = a)) as [-> | Hne].
        -- by rewrite Hcell.
        -- apply IH. lia.
    + exists a. repeat split; [lia.. | done |]. intros j' ?. lia.
Qed.

Lemma find_empty_outer_cons s i iz :
  find_empty_outer s (i :: iz)
  = let* r := find_empty_inner s i (seq 0 9) in
    match r with
    | Some p => Ok (Some p)
    | None => find_empty_outer s iz
    end.
Proof. reflexivity. Qed.

Lemma find_empty_outer_spec s a n :
  well_formed (solution s) → a + n ≤ 9 →
  match find_empty_outer s (seq a n) with
  | Ok None =>
      ∀ i j, a ≤ i < a + n → j < 9 → cell_at (solution s) i j ≠ Some None
  | Ok (Some p) =>
      ∃ i j, p = (j, i) ∧ a ≤ i < a + n ∧ j < 9 ∧
             cell_at (solution s) i j = Some None ∧
             ∀ r c, a ≤ r → c < 9 → precedes_row_major r c i j →
                    cell_at (solution s) r c ≠ Some None
  | Raise _ => False
  end.
Proof.
  intros Hwf. revert a. induction n as [|n IH]; intros a Ha.
  - simpl. intros i j ?. lia.
  - change (seq a (S n)) with (a :: seq (S a) n).
    rewrite find_empty_outer_cons.
    pose proof (find_empty_inner_spec s a 0 9 Hwf ltac:(lia) ltac:(lia))
      as Hinner.
    destruct (find_empty_inner s a (seq 0 9)) as [[p|]|e]; simpl; [| | done].
    + destruct Hinner as (j & -> & Hj & Hempty & Hbefore).
      exists a, j. repeat split; [lia.. | done |].
      intros r c Hr Hc [Hlt | [-> Hlt]]; [lia |]. apply Hbefore. lia.
    + specialize (IH (S a) ltac:(lia)).
      destruct (find_empty_outer s (seq (S a) n)) as [[p|]|e]; [| | done].
      * destruct IH as (i & j & -> & Hi & Hj & Hempty & Hbefore).
        exists i, j. repeat split; [lia.. | done |].
        intros r c Hr Hc Hprec. destruct (decide (r = a)) as [-> | Hne].
        -- apply Hinner. lia.
        -- apply Hbefore; [lia | done..].
      * intros i j Hi Hj. destruct (decide (i = a)) as [-> | Hne].
        -- apply Hinner. lia.
        -- apply IH; lia.
Qed.

Lemma first_empty_row_major_unique g i j i' j' :
  first_empty_row_major g i j → first_empty_row_major g i' j' →
  i = i' ∧ j = j'.
Proof.
  intros (Hi & Hj & Hempty & Hbefore) (Hi' & Hj' & Hempty' & Hbefore').
  destruct (decide (precedes_row_major i j i' j')) as [Hp | Hnp].
  { by destruct (Hbefore' i j Hi Hj Hp). }
  destruct (decide (precedes_row_major i' j' i j)) as [Hp' | Hnp'].
  { by destruct (Hbefore i' j' Hi' Hj' Hp'). }
  unfold precedes_row_major in *. lia.
Qed.

(** C8, as the code has it: on a 9x9 grid [find_empty] returns; it returns
    [None] exactly when no cell is empty, and the pair (j, i) exactly when
    the cell of row [i] and column [j] is the first empty one in row-major
    order (row 0 from left to right, then row 1, ...): the pair is
    (column, row). *)
Theorem find_empty_row_major (s : Sudoku) :
  well_formed (solution s) →
  (∃ o, find_empty s = Ok o) ∧
  (find_empty s = Ok None ↔ no_empty_cell (solution s)) ∧
  ∀ j i, find_empty s = Ok (Some (j, i)) ↔
         first_empty_row_major (solution s) i j.
Proof.
  intros Hwf. unfold find_empty.
  pose proof (find_empty_outer_spec s 0 9 Hwf ltac:(lia)) as Hspec.
  destruct (find_empty_outer s (seq 0 9)) as [[p|]|e]; [| | done].
  - destruct Hspec as (i & j & -> & Hi & Hj & Hempty & Hbefore).
    assert (first_empty_row_major (solution s) i j) as Hfirst.
    { repeat split; [lia | done..|]. intros r c Hr Hc. apply Hbefore; lia. }
    split; [by eexists |]. split.
    + split; [done |]. intros Hfull. by destruct (Hfull i j ltac:(lia) Hj).
    + intros j' i'. split.
      * by intros [= <- <-].
      * intros Hfirst'.
        by destruct (first_empty_row_major_unique _ _ _ _ _ Hfirst Hfirst')
          as [-> ->].
  - split; [by eexists |]. split.
    + split; [| done]. intros _ r c Hr Hc. apply Hspec; lia.
    + intros j i. split; [done |]. intros (Hi & Hj & Hempty & _).
      by destruct (Hspec i j ltac:(lia) Hj).
Qed.

Lemma find_empty_row_major_witness :
  (∃ o, find_empty (Sudoku_init example_board) = Ok o) ∧
  (find_empty (Sudoku_init example_board) = Ok None ↔
   no_empty_cell (solution (Sudoku_init example_board))) ∧
  ∀ j i, find_empty (Sudoku_init example_board) = Ok (Some (j, i)) ↔
         first_empty_row_major (solution (Sudoku_init example_board)) i j.
Proof.
  apply (find_empty_row_major (Sudoku_init example_board)).
  apply well_formed_Sudoku_init; [reflexivity | repeat constructor].
Defined.

(** C8, as stated, fails on the solved grid with (row 0, column 2) and
    (row 1, column 0) blanked: a column-major scan meets (row 1, column 0)
    first and reports (1, 0); [find_empty] meets (row 0, column 2) first
    and reports it as (2, 0). *)
Lemma find_empty_not_column_major :
  find_first_empty_column_major (solution (Sudoku_init two_blanks_board))
  = Some (1, 0) ∧
  find_empty (Sudoku_init two_blanks_board) = Ok (Some (2, 0)) ∧
  cell_at (solution (Sudoku_init two_blanks_board)) 0 2 = Some None.
Proof. repeat split; by vm_compute. Qed.

(** ** [check] *)

Lemma length_omap_le {A B} (f : A → option B) (l : list A) :
  length (omap f l) ≤ length l.
Proof.
  induction l as [|x l IH]; csimpl; [lia |].
  destruct (f x); csimpl; lia.
Qed.

Lemma omap_full {A B} (f : A → option B) (l : list A) x :
  length l ≤ length (omap f l) → x ∈ l → is_Some (f x).
Proof.
  induction l as [|y l IH]; csimpl; intros Hlen Hx.
  - by apply elem_of_nil in Hx.
  - pose proof (length_omap_le f l).
    destruct (f y) as [z|] eqn:Hy; csimpl in Hlen; [| lia].
    apply elem_of_cons in Hx as [-> | Hx]; [by eexists |].
    apply IH; [lia | done].
Qed.

Lemma omap_lookup_seq {A B} (g : A → option B) (l : list A) (f : nat → option A) :
  (∀ i, i < length l → l !! i = f i) →
  omap g l = omap (λ i, f i ≫= g) (seq 0 (length l)).
Proof.
  induction l as [|x l IH] using rev_ind; intros Hf; [done |].
  rewrite length_app. change (length [x]) with 1.
  rewrite Nat.add_1_r, seq_S, !omap_app, <- IH.
  - f_equal. csimpl.
    rewrite <- (Hf (length l)) by (rewrite length_app; simpl; lia).
    by rewrite list_lookup_middle.
  - intros i Hi. rewrite <- Hf by (rewrite length_app; lia).
    by rewrite lookup_app_l.
Qed.

Lemma complete_length vals : complete vals → 9 ≤ length vals.
Proof.
  unfold complete. intros Hset.
  change 9 with (length range_1_10).
  apply submseteq_length, NoDup_submseteq; [apply NoDup_seqZ |].
  intros d Hd.
  apply (elem_of_list_to_set (C := gset Z)).
  rewrite Hset. by apply elem_of_list_to_set.
Qed.

Lemma elem_of_omap_id (l : list cell) d : d ∈ omap id l ↔ Some d ∈ l.
Proof.
  rewrite list_elem_of_omap. split.
  - intros (v & Hv & Heq). unfold id in Heq. by subst.
  - intros Hd. by exists (Some d).
Qed.

(** [set(l) == set(range(1, 10))] on a list of 9 cells says that its
    non-empty values are exactly 1..9. *)
Lemma is_one_to_nine_complete (l : list cell) :
  length l = 9 → is_one_to_nine l = true ↔ complete (omap id l).
Proof.
  intros Hlen. unfold is_one_to_nine, complete.
  rewrite bool_decide_eq_true. split; intros Hset.
  - apply set_eq. intros d.
    rewrite !elem_of_list_to_set, elem_of_omap_id.
    rewrite <- (elem_of_list_to_set (C := gset cell)), Hset.
    rewrite elem_of_list_to_set. apply list_elem_of_fmap_inj. apply _.
  - assert (∀ d, d ∈ omap id l ↔ d ∈ range_1_10) as Hvals.
    { intros d. by rewrite <- !(elem_of_list_to_set (C := gset Z)), Hset. }
    apply set_eq. intros v. rewrite !elem_of_list_to_set.
    destruct v as [d|].
    + rewrite <- elem_of_omap_id, Hvals.
      symmetry. apply list_elem_of_fmap_inj. apply _.
    + split.
      * intros Hnone. exfalso.
        pose proof (complete_length _ Hset) as Hge.
        destruct (omap_full id l None) as [d Hd]; [lia | done | done].
      * intros (d & [=] & _)%list_elem_of_fmap.
Qed.

Lemma value_at_Some g r c d :
  value_at g r c = Some d ↔ cell_at g r c = Some (Some d).
Proof.
  unfold value_at. destruct (cell_at g r c) as [[d'|]|]; simpl;
    split; congruence.
Qed.

Lemma check_row_spec s r :
  well_formed (solution s) → r < 9 →
  ∃ b, check_row s r = Ok b ∧ (b = true ↔ complete (row_values (solution s) r)).
Proof.
  intros Hwf Hr. unfold check_row.
  destruct (get_row_Ok s r Hwf Hr) as (l & Hl & Hlen).
  rewrite Hl. simpl. eexists. split; [done |].
  rewrite (is_one_to_nine_complete l Hlen).
  rewrite (omap_lookup_seq id l (λ c, cell_at (solution s) r c)), Hlen; [done |].
  intros c _. by apply get_row_lookup.
Qed.

Lemma check_column_spec s c :
  well_formed (solution s) → c < 9 →
  ∃ b, check_column s c = Ok b ∧
       (b = true ↔ complete (column_values (solution s) c)).
Proof.
  intros Hwf Hc. unfold check_column.
  destruct (get_column_Ok s c Hwf Hc) as (l & Hl & Hlen & Hcells).
  rewrite Hl. simpl. eexists. split; [done |].
  rewrite (is_one_to_nine_complete l Hlen).
  by rewrite (omap_lookup_seq id l (λ r, cell_at (solution s) r c)), Hlen.
Qed.

Lemma length_concat_nine_square s x y :
  well_formed (solution s) → x < 3 → y < 3 →
  length (concat (get_nine_square s x y)) = 9.
Proof.
  intros Hwf Hx Hy.
  destruct (get_nine_square_shape s x y Hwf Hx Hy) as [Hlen Hsegs].
  destruct (get_nine_square s x y) as [|s0 [|s1 [|s2 [|]]]]; try done.
  apply Forall_cons in Hsegs as [H0 Hsegs].
  apply Forall_cons in Hsegs as [H1 Hsegs].
  apply Forall_cons in Hsegs as [H2 _].
  simpl. rewrite !length_app, H0, H1, H2. done.
Qed.

Lemma elem_of_block_values g bi bj d :
  d ∈ block_values g bi bj ↔
  ∃ m k, m < 3 ∧ k < 3 ∧ cell_at g (3 * bi + k) (3 * bj + m) = Some (Some d).
Proof.
  unfold block_values. rewrite list_elem_of_omap. split.
  - intros (n & Hn & Hval). apply elem_of_seq in Hn.
    apply value_at_Some in Hval.
    exists (n mod 3), (n / 3).
    split; [apply Nat.mod_upper_bound; lia |].
    split; [apply Nat.Div0.div_lt_upper_bound; lia | done].
  - intros (m & k & Hm & Hk & Hcell).
    exists (3 * k + m). split; [apply elem_of_seq; lia |].
    apply value_at_Some.
    replace ((3 * k + m) / 3) with k
      by (rewrite Nat.mul_comm, Nat.div_add_l, (Nat.div_small m 3); lia).
    replace ((3 * k + m) mod 3) with m
      by (rewrite Nat.add_comm, Nat.mul_comm, Nat.Div0.mod_add,
            Nat.mod_small; lia).
    done.
Qed.

(** [check_nine_square(x, y)] looks at the block of rows 3y..3y+2 and
    columns 3x..3x+2. *)
Lemma check_nine_square_spec s x y :
  well_formed (solution s) → x < 3 → y < 3 →
  check_nine_square s x y = true ↔ complete (block_values (solution s) y x).
Proof.
  intros Hwf Hx Hy. unfold check_nine_square.
  rewrite (is_one_to_nine_complete _ (length_concat_nine_square s x y Hwf Hx Hy)).
  unfold complete.
  assert (list_to_set (omap id (concat (get_nine_square s x y)))
          =@{gset Z} list_to_set (block_values (solution s) y x)) as ->; [| done].
  apply set_eq. intros d.
  by rewrite !elem_of_list_to_set, elem_of_omap_id, elem_of_nine_square,
    elem_of_block_values.
Qed.

Lemma check_lines_spec s idxs :
  well_formed (solution s) → Forall (λ idx, idx < 9) idxs →
  ∃ b, check_lines s idxs = Ok b ∧
       (b = true ↔
        Forall (λ idx, complete (row_values (solution s) idx) ∧
                       complete (column_values (solution s) idx)) idxs).
Proof.
  intros Hwf. induction 1 as [|idx rest Hidx _ (b & Hb & IH)]; simpl.
  - exists true. split; [done |]. split; [constructor | done].
  - destruct (check_row_spec s idx Hwf Hidx) as (br & -> & Hbr).
    destruct (check_column_spec s idx Hwf Hidx) as (bc & -> & Hbc).
    simpl. destruct br.
    + destruct bc.
      * exists b. split; [done |]. rewrite IH, Forall_cons. intuition.
      * exists false. split; [done |]. rewrite Forall_cons.
        split; [done |]. intros [[_ Hc] _]. by apply Hbc.
    + exists false. split; [done |]. rewrite Forall_cons.
      split; [done |]. intros [[Hr _] _]. by apply Hbr.
Qed.

Lemma complete_rows_filled g :
  (∀ r, r < 9 → complete (row_values g r)) → filled g.
Proof.
  intros Hrows r c Hr Hc.
  pose proof (complete_length _ (Hrows r Hr)) as Hlen.
  destruct (omap_full (λ c, value_at g r c) (seq 0 9) c) as [d Hd].
  - by rewrite length_seq.
  - apply elem_of_seq. lia.
  - exists d. by apply value_at_Some.
Qed.

Lemma check_squares_spec s :
  well_formed (solution s) →
  forallb (λ x, forallb (λ y, check_nine_square s x y) (seq 0 3)) (seq 0 3)
  = true ↔
  ∀ bi bj, bi < 3 → bj < 3 → complete (block_values (solution s) bi bj).
Proof.
  intros Hwf. rewrite forallb_forall. split.
  - intros Hall bi bj Hbi Hbj.
    apply (check_nine_square_spec s bj bi Hwf Hbj Hbi).
    specialize (Hall bj). rewrite forallb_forall in Hall.
    apply Hall; apply in_seq; lia.
  - intros Hall x Hx%in_seq. apply forallb_forall. intros y Hy%in_seq.
    apply check_nine_square_spec; [done | lia.. |]. apply Hall; lia.
Qed.

Lemma all_regions_complete_full g :
  all_regions_complete g → ¬ some_region_short g.
Proof.
  intros (Hrows & Hcols & Hblocks) [(r & Hr & Hlen) | [(c & Hc & Hlen) |
    (bi & bj & Hbi & Hbj & Hlen)]].
  - pose proof (complete_length _ (Hrows r Hr)). lia.
  - pose proof (complete_length _ (Hcols c Hc)). lia.
  - pose proof (complete_length _ (Hblocks bi bj Hbi Hbj)). lia.
Qed.

(** C6: on a 9x9 grid [check] returns, and it returns [True] exactly when
    the non-empty values of each of the 9 rows, 9 columns and 9 blocks are,
    as a set, 1..9.  So [True] is only returned for a grid without empty
    cell, and a region with fewer than 9 non-empty entries makes the result
    [False], whether or not a value is repeated. *)
Theorem check_true_iff (s : Sudoku) :
  well_formed (solution s) →
  ∃ b, check s = Ok b ∧
       (b = true ↔ all_regions_complete (solution s)) ∧
       (b = true → filled (solution s)) ∧
       (some_region_short (solution s) → b = false).
Proof.
  intros Hwf.
  assert (∃ b, check s = Ok b ∧ (b = true ↔ all_regions_complete (solution s)))
    as (b & Hb & Hiff).
  { unfold check.
    destruct (check_lines_spec s (seq 0 9) Hwf) as (bl & -> & Hbl).
    { apply Forall_forall. intros idx Hidx%elem_of_seq. lia. }
    simpl. rewrite Forall_forall in Hbl.
    destruct bl.
    - eexists. split; [done |]. rewrite (check_squares_spec s Hwf).
      destruct Hbl as [Hbl _]. specialize (Hbl eq_refl).
      unfold all_regions_complete. split.
      + intros Hblocks. repeat split; [| | done].
        * intros r Hr. apply (Hbl r). apply elem_of_seq. lia.
        * intros c Hc. apply (Hbl c). apply elem_of_seq. lia.
      + by intros (_ & _ & Hblocks).
    - exists false. split; [done |]. split; [done |].
      intros (Hrows & Hcols & _). apply Hbl.
      intros idx Hidx%elem_of_seq. split; [apply Hrows | apply Hcols]; lia. }
  exists b. split; [done |]. split; [done |]. split.
  - intros Htrue. apply complete_rows_filled. by apply Hiff.
  - intros Hshort. destruct b; [| done].
    destruct (all_regions_complete_full (solution s)); [by apply Hiff | done].
Qed.

Lemma check_true_iff_witness :
  ∃ b, check (Sudoku_init example_board) = Ok b ∧
       (b = true ↔ all_regions_complete (solution (Sudoku_init example_board))) ∧
       (b = true → filled (solution (Sudoku_init example_board))) ∧
       (some_region_short (solution (Sudoku_init example_board)) → b = false).
Proof.
  apply (check_true_iff (Sudoku_init example_board)).
  apply well_formed_Sudoku_init; [reflexivity | repeat constructor].
Defined.

(** ** [backtrack_solve] and [solve] *)

Lemma range_1_10_eq : range_1_10 = [1; 2; 3; 4; 5; 6; 7; 8; 9]%Z.
Proof. reflexivity. Qed.

Lemma backtrack_solve_S depth s :
  backtrack_solve (S depth) s
  = match find_empty s with
    | Raise e => (Raise e, s)
    | Ok None => (Ok true, s)
    | Ok (Some (row, col)) =>
        try_candidates (backtrack_solve depth) row col range_1_10 s
    end.
Proof. reflexivity. Qed.

(** One turn of the loop of [backtrack_solve], case by case. *)
Section candidates.
Variable rec : Sudoku → result bool * Sudoku.
Variables (row col : nat) (num : Z) (rest : list Z) (s : Sudoku).

Lemma try_candidates_invalid :
  is_valid s num (col, row) = Ok false →
  try_candidates rec row col (num :: rest) s
  = try_candidates rec row col rest s.
Proof. intros Hv. simpl. by rewrite Hv. Qed.

Lemma try_candidates_raise s1 e s2 :
  is_valid s num (col, row) = Ok true →
  set_cell s col row (Some num) = Ok s1 →
  rec s1 = (Raise e, s2) →
  try_candidates rec row col (num :: rest) s = (Raise e, s2).
Proof. intros Hv Hset Hrec. simpl. by rewrite Hv, Hset, Hrec. Qed.

Lemma try_candidates_backtrack s1 s2 s3 :
  is_valid s num (col, row) = Ok true →
  set_cell s col row (Some num) = Ok s1 →
  rec s1 = (Ok false, s2) →
  set_cell s2 col row None = Ok s3 →
  try_candidates rec row col (num :: rest) s
  = try_candidates rec row col rest s3.
Proof. intros Hv Hset Hrec Hunset. simpl. by rewrite Hv, Hset, Hrec, Hunset. Qed.
End candidates.

(** *** Blanks on the diagonal: the search succeeds *)

(** When the empty cells lie on the main diagonal the pair of [find_empty]
    reads the same both ways, and [solve] fills them in. *)
Lemma solve_fills_diagonal_blanks :
  solve 3 (Sudoku_init diagonal_blanks_board)
  = (Ok (Some (solution (Sudoku_init solved_board))),
      {| initial_board := initial_board (Sudoku_init diagonal_blanks_board);
         solution := solution (Sudoku_init solved_board) |}) ∧
  check (snd (solve 3 (Sudoku_init diagonal_blanks_board))) = Ok true.
Proof. split; by vm_compute. Qed.

(** *** A board with one blank: the search gives up *)

Lemma one_blank_board_completion :
  legal_completion one_blank_board solved_board.
Proof.
  split; [| split].
  - apply (bool_decide_unpack _). by vm_compute.
  - repeat (constructor; [repeat constructor; by (left + right) |]).
    constructor.
  - by vm_compute.
Qed.

(** C1 fails on the code: the solved grid with the cell of row 0, column 1
    blanked is a valid input and has a legal completion, yet [solve]
    returns [None] (and leaves the object as it was).  [find_empty] reports
    the blank as (1, 0) and [backtrack_solve] reads this pair as (row, col):
    the candidates are tested against the cell of row 1, column 0, whose
    row already holds every digit. *)
Theorem solve_gives_up_on_one_blank :
  valid_input one_blank_board ∧
  legal_completion one_blank_board solved_board ∧
  ∀ depth, solve (S depth) (Sudoku_init one_blank_board)
           = (Ok None, Sudoku_init one_blank_board).
Proof.
  split; [apply (bool_decide_unpack _); by vm_compute |].
  split; [apply one_blank_board_completion |].
  intros depth. unfold solve. rewrite backtrack_solve_S.
  replace (find_empty (Sudoku_init one_blank_board)) with
    (Ok (Some (1, 0)) : result (option (nat * nat))) by run.
  rewrite range_1_10_eq.
  do 9 (rewrite try_candidates_invalid by run).
  reflexivity.
Qed.

(** *** The example puzzle: the search never returns *)

(** With 2 stored at row 2, column 0 the next call stores 3 there, and the
    other way round; the empty cell that [find_empty] reports, row 0,
    column 2, is never written. *)
Lemma example_alternates depth :
  (∃ s', backtrack_solve depth example_2 = (Raise RecursionError, s')) ∧
  (∃ s', backtrack_solve depth example_3 = (Raise RecursionError, s')).
Proof.
  induction depth as [|depth [[s2 IH2] [s3 IH3]]].
  - split; by eexists.
  - split.
    + exists s3. rewrite backtrack_solve_S.
      replace (find_empty example_2) with
        (Ok (Some (2, 0)) : result (option (nat * nat))) by run.
      rewrite range_1_10_eq.
      do 2 (rewrite try_candidates_invalid by run).
      apply (try_candidates_raise _ _ _ _ _ _ example_3); [run | run | done].
    + exists s2. rewrite backtrack_solve_S.
      replace (find_empty example_3) with
        (Ok (Some (2, 0)) : result (option (nat * nat))) by run.
      rewrite range_1_10_eq.
      do 1 (rewrite try_candidates_invalid by run).
      apply (try_candidates_raise _ _ _ _ _ _ example_2); [run | run | done].
Qed.

(** C2 fails on the code: on the puzzle of the script's entry point, a
    valid input, the search ends neither with a full board nor with the
    exhaustion of the candidates.  Whatever depth of recursion is allowed,
    it is exceeded. *)
Theorem solve_example_never_returns :
  valid_input example_board ∧
  ∀ depth, fst (solve depth (Sudoku_init example_board)) = Raise RecursionError.
Proof.
  split; [apply (bool_decide_unpack _); by vm_compute |].
  intros depth. unfold solve.
  assert (∃ s', backtrack_solve depth (Sudoku_init example_board)
                = (Raise RecursionError, s')) as [s' ->]; [| done].
  destruct depth as [|depth]; [by eexists |].
  destruct (example_alternates depth) as [[s2 H2] _].
  exists s2. rewrite backtrack_solve_S.
  replace (find_empty (Sudoku_init example_board)) with
    (Ok (Some (2, 0)) : result (option (nat * nat))) by run.
  rewrite range_1_10_eq.
  do 1 (rewrite try_candidates_invalid by run).
  apply (try_candidates_raise _ _ _ _ _ _ example_2); [run | run | done].
Qed.

(** *** A clue is overwritten *)

Lemma clue_alternates depth :
  (∃ s', backtrack_solve depth clue_1 = (Raise RecursionError, s') ∧
         (s' = clue_1 ∨ s' = clue_2)) ∧
  (∃ s', backtrack_solve depth clue_2 = (Raise RecursionError, s') ∧
         (s' = clue_1 ∨ s' = clue_2)).
Proof.
  induction depth as [|depth [(s1 & IH1 & Hs1) (s2 & IH2 & Hs2)]].
  - split; eexists; (split; [reflexivity |]); [by left | by right].
  - split.
    + exists s2. split; [| done]. rewrite backtrack_solve_S.
      replace (find_empty clue_1) with
        (Ok (Some (1, 0)) : result (option (nat * nat))) by run.
      rewrite range_1_10_eq.
      do 1 (rewrite try_candidates_invalid by run).
      apply (try_candidates_raise _ _ _ _ _ _ clue_2); [run | run | done].
    + exists s1. split; [| done]. rewrite backtrack_solve_S.
      replace (find_empty clue_2) with
        (Ok (Some (1, 0)) : result (option (nat * nat))) by run.
      rewrite range_1_10_eq.
      apply (try_candidates_raise _ _ _ _ _ _ clue_1); [run | run | done].
Qed.

(** C3 fails on the code: [clue_board] is a valid input whose clue at
    row 1, column 0 is 9.  [find_empty] reports the empty cell of row 0,
    column 1 as (1, 0); [backtrack_solve] takes the pair for (row, col) and
    writes its candidates over the clue.  As soon as one call has run, and
    for as long as solving goes on, the working grid holds 1 or 2 where the
    given grid holds 9. *)
Theorem backtrack_solve_overwrites_clue :
  valid_input clue_board ∧
  cell_at (solution (Sudoku_init clue_board)) 1 0 = Some (Some 9%Z) ∧
  ∀ depth, ∃ s',
    backtrack_solve (S depth) (Sudoku_init clue_board)
    = (Raise RecursionError, s') ∧
    cell_at (initial_board s') 1 0 = Some (Some 9%Z) ∧
    (cell_at (solution s') 1 0 = Some (Some 1%Z) ∨
     cell_at (solution s') 1 0 = Some (Some 2%Z)).
Proof.
  split; [apply (bool_decide_unpack _); by vm_compute |].
  split; [reflexivity |].
  intros depth.
  destruct (clue_alternates depth) as [(s1 & H1 & Hs1) _].
  exists s1. split.
  - rewrite backtrack_solve_S.
    replace (find_empty (Sudoku_init clue_board)) with
      (Ok (Some (1, 0)) : result (option (nat * nat))) by run.
    rewrite range_1_10_eq.
    apply (try_candidates_raise _ _ _ _ _ _ clue_1); [run | run | done].
  - destruct Hs1 as [-> | ->]; (split; [reflexivity |]); [by left | by right].
Qed.

(** *** A failed search leaves a hole *)

(** C4 fails on the code: on [duplicate_board], a well-formed input whose
    row 1 starts with two 1s, the search fails and [solve] returns [None],
    but the working grid is not the one built by the constructor: the clue
    1 of row 1, column 0 was overwritten with 9 and then cleared. *)
Theorem solve_failure_erases_clue :
  valid_input duplicate_board ∧
  cell_at (solution (Sudoku_init duplicate_board)) 1 0 = Some (Some 1%Z) ∧
  ∀ depth, ∃ s',
    solve (S (S depth)) (Sudoku_init duplicate_board) = (Ok None, s') ∧
    cell_at (solution s') 1 0 = Some None ∧
    solution s' ≠ solution (Sudoku_init duplicate_board).
Proof.
  split; [apply (bool_decide_unpack _); by vm_compute |].
  split; [reflexivity |].
  intros depth.
  exists (with_cell (Sudoku_init duplicate_board) 0 1 None).
  split; [| split; [reflexivity | by vm_compute]].
  unfold solve. rewrite backtrack_solve_S.
  replace (find_empty (Sudoku_init duplicate_board)) with
    (Ok (Some (1, 0)) : result (option (nat * nat))) by run.
  rewrite range_1_10_eq.
  do 8 (rewrite try_candidates_invalid by run).
  rewrite (try_candidates_backtrack _ _ _ _ _ _
             (with_cell (Sudoku_init duplicate_board) 0 1 (Some 9%Z))
             (with_cell (Sudoku_init duplicate_board) 0 1 (Some 9%Z))
             (with_cell (Sudoku_init duplicate_board) 0 1 None));
    [reflexivity | run | run | | run].
  rewrite backtrack_solve_S.
  replace (find_empty (with_cell (Sudoku_init duplicate_board) 0 1 (Some 9%Z)))
    with (Ok (Some (1, 0)) : result (option (nat * nat))) by run.
  rewrite range_1_10_eq.
  do 9 (rewrite try_candidates_invalid by run).
  reflexivity.
Qed.

(** *** A full board *)

(** C10: when no cell of the working grid is empty, [solve] reports success
    and returns the grid as it is, also when [check] rejects that grid. *)
Theorem solve_full_board_unchecked (depth : nat) (s : Sudoku) :
  find_empty s = Ok None → check s = Ok false →
  solve (S depth) s = (Ok (Some (solution s)), s) ∧
  check (snd (solve (S depth) s)) = Ok false.
Proof.
  intros Hfull Hcheck. unfold solve. rewrite backtrack_solve_S, Hfull.
  by split.
Qed.

Lemma solve_full_board_unchecked_witness :
  valid_input all_ones_board ∧
  solve 1 (Sudoku_init all_ones_board)
  = (Ok (Some (solution (Sudoku_init all_ones_board))),
      Sudoku_init all_ones_board) ∧
  check (snd (solve 1 (Sudoku_init all_ones_board))) = Ok false.
Proof.
  split; [apply (bool_decide_unpack _); by vm_compute |].
  apply (solve_full_board_unchecked 0 (Sudoku_init all_ones_board));
    vm_compute; reflexivity.
Defined.

(** *** The extent of the defect *)

(** [find_empty] hands out the pair (j, i) of an empty cell of row [i],
    column [j]; [backtrack_solve] names it [row, col] and from then on
    works on [solution[col][row]], the cell of row [j], column [i].  Off
    the diagonal the empty cell itself is never written, so the search
    cannot succeed. *)

Lemma cell_at_with_cell s col row v r c :
  well_formed (solution s) → col < 9 → row < 9 →
  cell_at (solution (with_cell s col row v)) r c
  = if decide (r = row ∧ c = col) then Some v else cell_at (solution s) r c.
Proof.
  intros Hwf Hcol Hrow. unfold cell_at, with_cell. simpl.
  destruct (well_formed_lookup _ col Hwf Hcol) as (column & Hcolumn & Hlen).
  destruct (decide (c = col)) as [-> | Hc].
  - rewrite list_lookup_alter_eq, Hcolumn. simpl.
    destruct (decide (r = row)) as [-> | Hr].
    + rewrite decide_True by done. apply list_lookup_insert_eq. lia.
    + rewrite decide_False by tauto. by apply list_lookup_insert_ne.
  - rewrite list_lookup_alter_ne by done. by rewrite decide_False by tauto.
Qed.

Lemma well_formed_with_cell s col row v :
  well_formed (solution s) → well_formed (solution (with_cell s col row v)).
Proof.
  intros [Hlen Hall]. unfold with_cell. simpl. split.
  - by rewrite length_alter.
  - apply Forall_alter; [done |]. intros column _ Hcolumn.
    by rewrite length_insert.
Qed.

Lemma set_cell_Ok s col row v :
  well_formed (solution s) → col < 9 → row < 9 →
  set_cell s col row v = Ok (with_cell s col row v).
Proof.
  intros Hwf Hcol Hrow. unfold set_cell, index.
  destruct (well_formed_lookup _ col Hwf Hcol) as (column & -> & Hlen).
  simpl. rewrite decide_True; [done | lia].
Qed.

Lemma is_valid_Ok s d r c :
  well_formed (solution s) → r < 9 → c < 9 → ∃ b, is_valid s d (c, r) = Ok b.
Proof.
  intros Hwf Hr Hc. unfold is_valid. simpl.
  destruct (get_row_Ok s r Hwf Hr) as (lr & -> & _).
  destruct (get_column_Ok s c Hwf Hc) as (lc & -> & _).
  simpl. case_bool_decide; [by eexists |].
  simpl. case_bool_decide; [by eexists |].
  case_bool_decide; by eexists.
Qed.

Lemma find_empty_Some s j i :
  well_formed (solution s) → find_empty s = Ok (Some (j, i)) →
  i < 9 ∧ j < 9 ∧ cell_at (solution s) i j = Some None.
Proof.
  intros Hwf Hfind. unfold find_empty in Hfind.
  pose proof (find_empty_outer_spec s 0 9 Hwf ltac:(lia)) as Hspec.
  rewrite Hfind in Hspec.
  destruct Hspec as (i' & j' & [= -> ->] & Hi & Hj & Hempty & _).
  repeat split; [lia | done..].
Qed.

Lemma find_empty_None s :
  well_formed (solution s) → find_empty s = Ok None →
  no_empty_cell (solution s).
Proof.
  intros Hwf Hfind. unfold find_empty in Hfind.
  pose proof (find_empty_outer_spec s 0 9 Hwf ltac:(lia)) as Hspec.
  rewrite Hfind in Hspec. intros r c Hr Hc. apply Hspec; lia.
Qed.

Lemma find_empty_Ok s :
  well_formed (solution s) → ∃ o, find_empty s = Ok o.
Proof.
  intros Hwf. unfold find_empty.
  pose proof (find_empty_outer_spec s 0 9 Hwf ltac:(lia)) as Hspec.
  destruct (find_empty_outer s (seq 0 9)); [by eexists | done].
Qed.

Section off_diagonal.
Variable rec : Sudoku → result bool * Sudoku.
Hypothesis rec_cannot_succeed :
  ∀ s, well_formed (solution s) → has_off_diagonal_empty (solution s) →
       cannot_succeed (solution s) (rec s).

Variable g0 : list (list (option Z)).
Variables i j : nat.
Hypothesis i_lt : i < 9.
Hypothesis j_lt : j < 9.
Hypothesis empty_i_j : cell_at g0 i j = Some None.
Hypothesis off_diagonal : has_off_diagonal_empty g0.

(** Writing a candidate at row [j], column [i] leaves an empty cell off the
    diagonal: the cell of row [i], column [j] when [i ≠ j], any of the
    others when [i = j]. *)
Lemma candidate_keeps_off_diagonal_empty s num :
  well_formed (solution s) → keeps_empty g0 (solution s) →
  has_off_diagonal_empty (solution (with_cell s i j (Some num))).
Proof using i_lt j_lt empty_i_j off_diagonal.
  intros Hwf Hkeeps. destruct (decide (i = j)) as [Heq | Hne].
  - destruct off_diagonal as (r & c & Hr & Hc & Hrc & Hempty).
    exists r, c. repeat split; [done..|].
    rewrite cell_at_with_cell by done.
    rewrite decide_False by lia. by apply Hkeeps.
  - exists i, j. repeat split; [done..|].
    rewrite cell_at_with_cell by done.
    rewrite decide_False by lia. by apply Hkeeps.
Qed.

Lemma try_candidates_cannot_succeed nums s :
  well_formed (solution s) → keeps_empty g0 (solution s) →
  cannot_succeed g0 (try_candidates rec j i nums s).
Proof using All.
  revert s. induction nums as [|num rest IH]; intros s Hwf Hkeeps; simpl.
  - by split.
  - destruct (is_valid_Ok s num j i Hwf j_lt i_lt) as [[|] ->]; [| by apply IH].
    rewrite (set_cell_Ok s i j (Some num) Hwf i_lt j_lt).
    pose proof (well_formed_with_cell s i j (Some num) Hwf) as Hwf1.
    destruct (rec_cannot_succeed _ Hwf1
                (candidate_keeps_off_diagonal_empty s num Hwf Hkeeps))
      as [Hnot Hfalse].
    destruct (rec (with_cell s i j (Some num))) as [[[|]|e] s2];
      cbn [fst snd] in Hnot, Hfalse; cbv iota beta; [done | | by split].
    destruct (Hfalse eq_refl) as [Hwf2 Hkeeps2].
    rewrite (set_cell_Ok s2 i j None Hwf2 i_lt j_lt).
    apply IH; [by apply well_formed_with_cell |].
    intros r c Hempty. rewrite cell_at_with_cell by done.
    case_decide as Hrc; [done |]. apply Hkeeps2.
    rewrite cell_at_with_cell by done.
    rewrite decide_False by done. by apply Hkeeps.
Qed.
End off_diagonal.

Lemma backtrack_solve_cannot_succeed depth s :
  well_formed (solution s) → has_off_diagonal_empty (solution s) →
  cannot_succeed (solution s) (backtrack_solve depth s).
Proof.
  revert s. induction depth as [|depth IH]; intros s Hwf Hoff.
  - by split.
  - rewrite backtrack_solve_S.
    destruct (find_empty_Ok s Hwf) as [[[j i]|] Hfind]; rewrite Hfind.
    + destruct (find_empty_Some s j i Hwf Hfind) as (Hi & Hj & Hempty).
      apply (try_candidates_cannot_succeed _ IH); try done.
      by intros r c ?.
    + destruct Hoff as (r & c & Hr & Hc & _ & Hempty).
      by destruct (find_empty_None s Hwf Hfind r c Hr Hc).
Qed.

(** X9: on a 9x9 grid with an empty cell off the main diagonal, [solve]
    never returns a grid, whatever depth of recursion is allowed. *)
Lemma solve_never_fills_off_diagonal depth s g :
  well_formed (solution s) → has_off_diagonal_empty (solution s) →
  fst (solve depth s) ≠ Ok (Some g).
Proof.
  intros Hwf Hoff. unfold solve.
  destruct (backtrack_solve_cannot_succeed depth s Hwf Hoff) as [Hnot _].
  by destruct (backtrack_solve depth s) as [[[|]|e] s'].
Qed.

(** * Further properties *)

Lemma set_cell_inv s col row v s1 :
  set_cell s col row v = Ok s1 → s1 = with_cell s col row v.
Proof.
  unfold set_cell. destruct (index (solution s) col) as [column|e]; simpl; [| done].
  case_decide; [by intros [= <-] | done].
Qed.

Lemma with_cell_same_shape s col row v :
  same_shape (solution s) (solution (with_cell s col row v)).
Proof.
  unfold same_shape, with_cell. simpl.
  apply list_eq. intros k. rewrite !list_lookup_fmap.
  destruct (decide (col = k)) as [<- | Hne].
  - rewrite list_lookup_alter_eq. destruct (solution s !! col); simpl; [| done].
    by rewrite length_insert.
  - by rewrite list_lookup_alter_ne.
Qed.

Lemma with_cell_entries_valid s col row v :
  valid_entry v → entries_valid (solution s) →
  entries_valid (solution (with_cell s col row v)).
Proof.
  intros Hv Hall. unfold entries_valid, with_cell. simpl.
  apply Forall_alter; [done |]. intros column _ Hcolumn.
  apply Forall_insert; done.
Qed.

(** What holds of the object however the search ends. *)
Section preserved.
Variable P : Sudoku → Prop.
Hypothesis P_place : ∀ s col row num,
  P s → num ∈ range_1_10 → is_valid s num (col, row) = Ok true →
  P (with_cell s col row (Some num)).
Hypothesis P_clear : ∀ s col row, P s → P (with_cell s col row None).

Lemma try_candidates_preserves rec row col nums s :
  (∀ s, P s → P (rec s).2) → nums ⊆ range_1_10 → P s →
  P (try_candidates rec row col nums s).2.
Proof using All.
  intros Hrec. revert s. induction nums as [|num rest IH]; intros s Hsub Hs; simpl.
  - done.
  - assert (num ∈ range_1_10) as Hnum by (apply Hsub; left).
    assert (rest ⊆ range_1_10) as Hrest by (intros d Hd; apply Hsub; by right).
    destruct (is_valid s num (col, row)) as [[|]|e] eqn:Hvalid;
      [| by apply IH | done].
    destruct (set_cell s col row (Some num)) as [s1|e] eqn:Hset; [| done].
    apply set_cell_inv in Hset as ->.
    pose proof (Hrec _ (P_place s col row num Hs Hnum Hvalid)) as Hs2.
    destruct (rec (with_cell s col row (Some num))) as [[[|]|e] s2];
      simpl in Hs2; [done | | done].
    destruct (set_cell s2 col row None) as [s3|e] eqn:Hunset; [| done].
    apply set_cell_inv in Hunset as ->.
    apply IH; [done |]. by apply P_clear.
Qed.

Lemma backtrack_solve_preserves depth s :
  P s → P (backtrack_solve depth s).2.
Proof using All.
  revert s. induction depth as [|depth IH]; intros s Hs; [done |].
  rewrite backtrack_solve_S.
  destruct (find_empty s) as [[[row col]|]|e]; [| done..].
  by apply try_candidates_preserves.
Qed.
End preserved.

Lemma backtrack_solve_keeps_frame (depth : nat) (s : Sudoku) :
  initial_board (backtrack_solve depth s).2 = initial_board s ∧
  same_shape (solution s) (solution (backtrack_solve depth s).2).
Proof.
  apply (backtrack_solve_preserves
           (λ s', initial_board s' = initial_board s ∧
                  same_shape (solution s) (solution s'))).
  - intros s' col row num [Hinit Hshape] _ _. split; [done |].
    unfold same_shape in *. rewrite Hshape. apply with_cell_same_shape.
  - intros s' col row [Hinit Hshape]. split; [done |].
    unfold same_shape in *. rewrite Hshape. apply with_cell_same_shape.
  - done.
Qed.

Lemma backtrack_solve_entries_valid (depth : nat) (s : Sudoku) :
  entries_valid (solution s) →
  entries_valid (solution (backtrack_solve depth s).2).
Proof.
  apply (backtrack_solve_preserves (λ s', entries_valid (solution s'))).
  - intros s' col row num Hs' Hnum _. apply with_cell_entries_valid; [| done].
    simpl. apply elem_of_seqZ in Hnum. lia.
  - intros s' col row Hs'. by apply with_cell_entries_valid.
Qed.

Lemma solve_snd depth s : (solve depth s).2 = (backtrack_solve depth s).2.
Proof. unfold solve. by destruct (backtrack_solve depth s) as [[[|]|e] s']. Qed.

(** *** [find_empty] on any object *)

Lemma find_empty_inner_any s i a n :
  match find_empty_inner s i (seq a n) with
  | Ok None => ∀ j, a ≤ j < a + n → ∃ d, cell_at (solution s) i j = Some (Some d)
  | Ok (Some p) =>
      ∃ j, p = (j, i) ∧ a ≤ j < a + n ∧ cell_at (solution s) i j = Some None ∧
           ∀ j', a ≤ j' < j → ∃ d, cell_at (solution s) i j' = Some (Some d)
  | Raise e =>
      e = IndexError ∧
      ∃ j, a ≤ j < a + n ∧ cell_at (solution s) i j = None ∧
           ∀ j', a ≤ j' < j → ∃ d, cell_at (solution s) i j' = Some (Some d)
  end.
Proof.
  revert a. induction n as [|n IH]; intros a; simpl.
  - intros j ?. lia.
  - unfold index.
    destruct (solution s !! a) as [column|] eqn:Hcol; simpl.
    + destruct (column !! i) as [v|] eqn:Hv; simpl.
      * assert (cell_at (solution s) i a = Some v) as Hcell.
        { unfold cell_at. by rewrite Hcol. }
        destruct v as [d|].
        -- specialize (IH (S a)).
           destruct (find_empty_inner s i (seq (S a) n)) as [[p|]|e].
           ++ destruct IH as (j & -> & Hj & Hempty & Hbefore).
              exists j. repeat split; [lia.. | done |].
              intros j' Hj'. destruct (decide (j' = a)) as [-> | Hne];
                [by eexists | apply Hbefore; lia].
           ++ intros j Hj. destruct (decide (j = a)) as [-> | Hne];
                [by eexists | apply IH; lia].
           ++ destruct IH as (-> & j & Hj & Hout & Hbefore).
              split; [done |]. exists j. repeat split; [lia.. | done |].
              intros j' Hj'. destruct (decide (j' = a)) as [-> | Hne];
                [by eexists | apply Hbefore; lia].
        -- exists a. repeat split; [lia.. | done |]. intros j' ?. lia.
      * split; [done |]. exists a. repeat split; [lia.. | |].
        -- unfold cell_at. by rewrite Hcol.
        -- intros j' ?. lia.
    + split; [done |]. exists a. repeat split; [lia.. | |].
      * unfold cell_at. by rewrite Hcol.
      * intros j' ?. lia.
Qed.

Lemma find_empty_outer_any s a n :
  a + n ≤ 9 →
  match find_empty_outer s (seq a n) with
  | Ok None =>
      ∀ i j, a ≤ i < a + n → j < 9 → ∃ d, cell_at (solution s) i j = Some (Some d)
  | Ok (Some p) =>
      ∃ i j, p = (j, i) ∧ a ≤ i < a + n ∧ j < 9 ∧
             cell_at (solution s) i j = Some None ∧
             ∀ r c, a ≤ r → c < 9 → precedes_row_major r c i j →
                    ∃ d, cell_at (solution s) r c = Some (Some d)
  | Raise e =>
      e = IndexError ∧
      ∃ i j, a ≤ i < a + n ∧ j < 9 ∧ cell_at (solution s) i j = None ∧
             ∀ r c, a ≤ r → c < 9 → precedes_row_major r c i j →
                    ∃ d, cell_at (solution s) r c = Some (Some d)
  end.
Proof.
  revert a. induction n as [|n IH]; intros a Ha.
  - simpl. intros i j ?. lia.
  - change (seq a (S n)) with (a :: seq (S a) n).
    rewrite find_empty_outer_cons.
    pose proof (find_empty_inner_any s a 0 9) as Hinner.
    destruct (find_empty_inner s a (seq 0 9)) as [[p|]|e]; simpl.
    + destruct Hinner as (j & -> & Hj & Hempty & Hbefore).
      exists a, j. repeat split; [lia.. | done |].
      intros r c Hr Hc [Hlt | [-> Hlt]]; [lia |]. apply Hbefore. lia.
    + specialize (IH (S a) ltac:(lia)).
      destruct (find_empty_outer s (seq (S a) n)) as [[p|]|e].
      * destruct IH as (i & j & -> & Hi & Hj & Hempty & Hbefore).
        exists i, j. repeat split; [lia.. | done |].
        intros r c Hr Hc Hprec. destruct (decide (r = a)) as [-> | Hne].
        -- apply Hinner. lia.
        -- apply Hbefore; [lia | done..].
      * intros i j Hi Hj. destruct (decide (i = a)) as [-> | Hne].
        -- apply Hinner. lia.
        -- apply IH; lia.
      * destruct IH as (-> & i & j & Hi & Hj & Hout & Hbefore).
        split; [done |]. exists i, j. repeat split; [lia.. | done |].
        intros r c Hr Hc Hprec. destruct (decide (r = a)) as [-> | Hne].
        -- apply Hinner. lia.
        -- apply Hbefore; [lia | done..].
    + destruct Hinner as (-> & j & Hj & Hout & Hbefore).
      split; [done |]. exists a, j. repeat split; [lia.. | done |].
      intros r c Hr Hc [Hlt | [-> Hlt]]; [lia |]. apply Hbefore. lia.
Qed.

(** X3: on any object, of whatever shape, [find_empty] reads the positions
    of the 9x9 grid in row-major order until one is empty or missing. *)
Theorem find_empty_any_object (s : Sudoku) :
  match find_empty s with
  | Ok None => filled (solution s)
  | Ok (Some (j, i)) =>
      i < 9 ∧ j < 9 ∧ cell_at (solution s) i j = Some None ∧
      filled_before (solution s) i j
  | Raise e =>
      e = IndexError ∧
      ∃ i j, i < 9 ∧ j < 9 ∧ cell_at (solution s) i j = None ∧
             filled_before (solution s) i j
  end.
Proof.
  unfold find_empty.
  pose proof (find_empty_outer_any s 0 9 ltac:(lia)) as Hspec.
  destruct (find_empty_outer s (seq 0 9)) as [[[j i]|]|e].
  - destruct Hspec as (i' & j' & [= -> ->] & Hi & Hj & Hempty & Hbefore).
    repeat split; [lia | done..|]. intros r c Hr Hc. apply Hbefore; lia.
  - intros r c Hr Hc. apply Hspec; lia.
  - destruct Hspec as (-> & i & j & Hi & Hj & Hout & Hbefore).
    split; [done |]. exists i, j. repeat split; [lia | done..|].
    intros r c Hr Hc. apply Hbefore; lia.
Qed.

Lemma find_empty_None_filled s : find_empty s = Ok None → filled (solution s).
Proof.
  intros Hfind. pose proof (find_empty_any_object_aux := find_empty_outer_any s 0 9 ltac:(lia)).
  unfold find_empty in Hfind. rewrite Hfind in find_empty_any_object_aux.
  intros r c Hr Hc. apply find_empty_any_object_aux; lia.
Qed.

(** *** What a successful search leaves *)

Lemma try_candidates_true_full rec row col nums s s' :
  (∀ s1 s2, rec s1 = (Ok true, s2) → find_empty s2 = Ok None) →
  try_candidates rec row col nums s = (Ok true, s') → find_empty s' = Ok None.
Proof.
  intros Hrec. revert s. induction nums as [|num rest IH]; intros s; simpl.
  - done.
  - destruct (is_valid s num (col, row)) as [[|]|e]; [| by apply IH | done].
    destruct (set_cell s col row (Some num)) as [s1|e]; [| done].
    destruct (rec s1) as [[[|]|e] s2] eqn:Hs1; [| | done].
    + intros [= <-]. by eapply Hrec.
    + destruct (set_cell s2 col row None) as [s3|e]; [by apply IH | done].
Qed.

Lemma backtrack_solve_true_full depth s s' :
  backtrack_solve depth s = (Ok true, s') → find_empty s' = Ok None.
Proof.
  revert s s'. induction depth as [|depth IH]; intros s s'; [done |].
  rewrite backtrack_solve_S.
  destruct (find_empty s) as [[[row col]|]|e] eqn:Hfind; [| | done].
  - by apply try_candidates_true_full.
  - by intros [= <-].
Qed.

(** X4: a grid returned by [solve] is the working grid, and none of its 81
    cells is empty, whatever object [solve] was called on. *)
Theorem solve_returns_filled_grid (depth : nat) (s s' : Sudoku) g :
  solve depth s = (Ok (Some g), s') → g = solution s' ∧ filled g.
Proof.
  unfold solve.
  destruct (backtrack_solve depth s) as [[[|]|e] s2] eqn:Hbs; [| done..].
  intros [= <- <-]. split; [done |].
  by apply find_empty_None_filled, (backtrack_solve_true_full depth s).
Qed.

(** X5: calling [solve] again after it returned a grid changes nothing and
    returns the same grid. *)
Theorem solve_again_is_noop (depth depth' : nat) (s s' : Sudoku) g :
  solve depth s = (Ok (Some g), s') →
  solve (S depth') s' = (Ok (Some g), s').
Proof.
  unfold solve.
  destruct (backtrack_solve depth s) as [[[|]|e] s2] eqn:Hbs; [| done..].
  intros [= <- <-]. rewrite backtrack_solve_S.
  by rewrite (backtrack_solve_true_full depth s s2 Hbs).
Qed.

(** *** The allowed depth *)

Lemma try_candidates_mono rec rec' row col nums s b s' :
  (∀ s1 b1 s2, rec s1 = (Ok b1, s2) → rec' s1 = (Ok b1, s2)) →
  try_candidates rec row col nums s = (Ok b, s') →
  try_candidates rec' row col nums s = (Ok b, s').
Proof.
  intros Hrec. revert s. induction nums as [|num rest IH]; intros s; simpl.
  - done.
  - destruct (is_valid s num (col, row)) as [[|]|e]; [| by apply IH | done].
    destruct (set_cell s col row (Some num)) as [s1|e]; [| done].
    destruct (rec s1) as [[b1|e] s2] eqn:Hs1; [| done].
    rewrite (Hrec _ _ _ Hs1). destruct b1; [done |].
    destruct (set_cell s2 col row None) as [s3|e]; [by apply IH | done].
Qed.

Lemma backtrack_solve_S_mono depth s b s' :
  backtrack_solve depth s = (Ok b, s') →
  backtrack_solve (S depth) s = (Ok b, s').
Proof.
  revert s b s'. induction depth as [|depth IH]; intros s b s'; [done |].
  rewrite !backtrack_solve_S.
  destruct (find_empty s) as [[[row col]|]|e]; [| done..].
  by apply try_candidates_mono.
Qed.

(** X6: a result of [solve] does not depend on the depth that was allowed:
    what it returns within some depth it returns within any larger one. *)
Theorem solve_depth_mono (depth depth' : nat) (s s' : Sudoku) o :
  depth ≤ depth' →
  solve depth s = (Ok o, s') → solve depth' s = (Ok o, s').
Proof.
  intros Hle. induction Hle as [|depth' _ IH]; [done |].
  intros Hsolve. specialize (IH Hsolve). revert IH. unfold solve.
  destruct (backtrack_solve depth' s) as [[b|e] s2] eqn:Hbs; [| by destruct e].
  rewrite (backtrack_solve_S_mono _ _ _ _ Hbs). done.
Qed.

Lemma is_valid_spec s d r c :
  well_formed (solution s) → r < 9 → c < 9 →
  ∃ b, is_valid s d (c, r) = Ok b ∧
       (b = false ↔ in_row (solution s) d r ∨ in_column (solution s) d c ∨
                    in_block (solution s) d r c).
Proof.
  intros Hwf Hr Hc. unfold is_valid. simpl.
  destruct (get_row_Ok s r Hwf Hr) as (lr & Hlr & Hlenr).
  destruct (get_column_Ok s c Hwf Hc) as (lc & Hlc & Hlenc & Hcells).
  rewrite Hlr. simpl.
  pose proof (elem_of_get_row s r lr (Some d) Hlr Hlenr) as Hrow.
  assert (Some d ∈ lc ↔ in_column (solution s) d c) as Hcol.
  { rewrite list_elem_of_lookup. unfold in_column. split.
    - intros [r' Hr']. exists r'. split.
      + apply lookup_lt_Some in Hr'. lia.
      + by rewrite <- Hcells.
    - intros (r' & _ & Hr'). exists r'. by rewrite Hcells. }
  pose proof (elem_of_nine_square s (c / 3) (r / 3) (Some d)) as Hblk.
  rewrite <- in_block_iff in Hblk.
  case_bool_decide as H1.
  { exists false. split; [done |]. split; [| done]. intros _. left.
    by apply Hrow. }
  rewrite Hlc. simpl. case_bool_decide as H2.
  { exists false. split; [done |]. split; [| done]. intros _. right. left.
    by apply Hcol. }
  case_bool_decide as H3.
  { exists false. split; [done |]. split; [| done]. intros _. right. right.
    by apply Hblk. }
  exists true. split; [done |]. split; [done |].
  intros [Hin | [Hin | Hin]]; exfalso.
  - by apply H1, Hrow.
  - by apply H2, Hcol.
  - by apply H3, Hblk.
Qed.

Lemma is_valid_true_bounds s d c r :
  well_formed (solution s) → is_valid s d (c, r) = Ok true → r < 9 ∧ c < 9.
Proof.
  intros [Hlen Hall]. unfold is_valid. simpl.
  destruct (get_row s r) as [lr|e] eqn:Hlr; simpl; [| done].
  case_bool_decide; [done |].
  destruct (get_column s c) as [lc|e] eqn:Hlc; simpl; [| done].
  intros _. split.
  - unfold get_row in Hlr. apply list_comp_Ok in Hlr.
    destruct (solution s) as [|column g] eqn:Hg; [done |].
    inversion Hlr as [|? v ? ? Hv _]; subst.
    apply index_Ok, lookup_lt_Some in Hv.
    apply Forall_inv in Hall. simpl in Hall. lia.
  - unfold get_column in Hlc. apply index_Ok, lookup_lt_Some in Hlc. lia.
Qed.

Lemma is_valid_true_free s d r c r' c' :
  well_formed (solution s) → r < 9 → c < 9 → r' < 9 → c' < 9 →
  is_valid s d (c, r) = Ok true → same_region r c r' c' →
  cell_at (solution s) r' c' ≠ Some (Some d).
Proof.
  intros Hwf Hr Hc Hr' Hc' Hvalid Hsame Hcell.
  destruct (is_valid_spec s d r c Hwf Hr Hc) as (b & Hb & Hiff).
  rewrite Hvalid in Hb. injection Hb as <-.
  enough (true = false) by done. apply Hiff.
  destruct Hsame as [-> | [-> | [Hrb Hcb]]].
  - left. by exists c'.
  - right. left. by exists r'.
  - right. right. by exists r', c'.
Qed.

Lemma same_region_sym r c r' c' : same_region r c r' c' → same_region r' c' r c.
Proof. unfold same_region. intuition. Qed.

Lemma no_clash_place s col row num :
  well_formed (solution s) → no_clash (solution s) →
  is_valid s num (col, row) = Ok true →
  no_clash (solution (with_cell s col row (Some num))).
Proof.
  intros Hwf Hclash Hvalid.
  destruct (is_valid_true_bounds s num col row Hwf Hvalid) as [Hrow Hcol].
  intros r c r' c' d Hr Hc Hr' Hc' Hsame.
  rewrite !cell_at_with_cell by done.
  destruct (decide (r = row ∧ c = col)) as [[-> ->] | Hne];
    destruct (decide (r' = row ∧ c' = col)) as [[-> ->] | Hne'].
  - done.
  - intros [= <-] Hcell.
    by destruct (is_valid_true_free s num row col r' c' Hwf Hrow Hcol Hr' Hc'
                   Hvalid Hsame).
  - intros Hcell [= <-].
    by destruct (is_valid_true_free s num row col r c Hwf Hrow Hcol Hr Hc
                   Hvalid (same_region_sym _ _ _ _ Hsame)).
  - by apply Hclash.
Qed.

Lemma cell_at_with_cell_Some s col row v r c x :
  cell_at (solution (with_cell s col row v)) r c = Some x →
  x = v ∨ cell_at (solution s) r c = Some x.
Proof.
  unfold cell_at, with_cell. simpl. rewrite list_lookup_alter.
  destruct (decide (col = c)) as [<- | Hne]; [| by right].
  destruct (solution s !! col) as [column|]; simpl; [| done].
  intros [(_ & -> & _) | [_ Hx]]%list_lookup_insert_Some; [by left | by right].
Qed.

Lemma no_clash_clear s col row :
  no_clash (solution s) → no_clash (solution (with_cell s col row None)).
Proof.
  intros Hclash r c r' c' d Hr Hc Hr' Hc' Hsame Hcell Hcell'.
  apply cell_at_with_cell_Some in Hcell as [[=] | Hcell].
  apply cell_at_with_cell_Some in Hcell' as [[=] | Hcell'].
  by apply (Hclash r c r' c' d).
Qed.

Lemma backtrack_solve_no_clash depth s :
  well_formed (solution s) → no_clash (solution s) →
  well_formed (solution (backtrack_solve depth s).2) ∧
  no_clash (solution (backtrack_solve depth s).2).
Proof.
  intros Hwf Hclash.
  apply (backtrack_solve_preserves
           (λ s', well_formed (solution s') ∧ no_clash (solution s'))).
  - intros s' col row num [Hwf' Hclash'] _ Hvalid. split.
    + by apply well_formed_with_cell.
    + by apply no_clash_place.
  - intros s' col row [Hwf' Hclash']. split.
    + by apply well_formed_with_cell.
    + by apply no_clash_clear.
  - done.
Qed.

(** *** From distinct values to complete regions *)

Lemma NoDup_omap_inj {A B} (f : A → option B) (l : list A) :
  NoDup l →
  NoDup (omap f l) ↔
  ∀ x y d, x ∈ l → y ∈ l → f x = Some d → f y = Some d → x = y.
Proof.
  induction 1 as [|x l Hx Hl IH]; csimpl.
  - split; [by intros _ x y d ?%elem_of_nil | constructor].
  - destruct (f x) as [d|] eqn:Hfx.
    + rewrite NoDup_cons, IH, list_elem_of_omap. split.
      * intros [Hnotin Hinj] y z e [-> | Hy]%elem_of_cons [-> | Hz]%elem_of_cons
          Hfy Hfz; [done | | | by eapply Hinj].
        -- destruct Hnotin. exists z. split; [done | congruence].
        -- destruct Hnotin. exists y. split; [done | congruence].
      * intros Hinj. split.
        -- intros (y & Hy & Hfy).
           assert (x = y) as -> by (eapply Hinj; [by left | by right | done..]).
           done.
        -- intros y z e Hy Hz. apply Hinj; by right.
    + rewrite IH. split.
      * intros Hinj y z e [-> | Hy]%elem_of_cons [-> | Hz]%elem_of_cons
          Hfy Hfz; [done | congruence.. | by eapply Hinj].
      * intros Hinj y z e Hy Hz. apply Hinj; by right.
Qed.

Lemma length_omap_all_Some {A B} (f : A → option B) (l : list A) :
  (∀ x, x ∈ l → is_Some (f x)) → length (omap f l) = length l.
Proof.
  induction l as [|x l IH]; csimpl; intros Hall; [done |].
  destruct (Hall x) as [d ->]; [by left |]. csimpl.
  rewrite IH; [done |]. intros y Hy. apply Hall. by right.
Qed.

Lemma complete_of_NoDup vals :
  NoDup vals → length vals = 9 → (∀ d, d ∈ vals → (1 ≤ d ≤ 9)%Z) →
  complete vals.
Proof.
  intros Hnodup Hlen Hrange. unfold complete.
  apply list_to_set_perm_L, submseteq_length_Permutation.
  - apply NoDup_submseteq; [done |]. intros d Hd.
    apply elem_of_seqZ. specialize (Hrange d Hd). lia.
  - by rewrite Hlen.
Qed.

Lemma entries_valid_cell_at g r c d :
  entries_valid g → cell_at g r c = Some (Some d) → (1 ≤ d ≤ 9)%Z.
Proof.
  unfold entries_valid, cell_at. intros Hall Hcell.
  destruct (g !! c) as [column|] eqn:Hcol; simpl in Hcell; [| done].
  pose proof (Forall_lookup_1 _ _ _ _ Hall Hcol) as Hcolumn.
  exact (Forall_lookup_1 _ _ _ _ Hcolumn Hcell).
Qed.

Lemma div_3_block b k : k < 3 → (3 * b + k) / 3 = b.
Proof.
  intros Hk. rewrite Nat.mul_comm, Nat.div_add_l, (Nat.div_small k 3); lia.
Qed.

Lemma mod_3_block b k : k < 3 → (3 * b + k) mod 3 = k.
Proof.
  intros Hk.
  rewrite Nat.add_comm, Nat.mul_comm, Nat.Div0.mod_add, Nat.mod_small; lia.
Qed.

Lemma block_cell_bounds bi bj k :
  bi < 3 → bj < 3 → k < 9 →
  3 * bi + k / 3 < 9 ∧ 3 * bj + k mod 3 < 9 ∧
  (3 * bi + k / 3) / 3 = bi ∧ (3 * bj + k mod 3) / 3 = bj.
Proof.
  intros Hbi Hbj Hk.
  assert (k / 3 < 3) by (apply Nat.Div0.div_lt_upper_bound; lia).
  assert (k mod 3 < 3) by (apply Nat.mod_upper_bound; lia).
  repeat split; [lia.. | by apply div_3_block | by apply div_3_block].
Qed.

Lemma no_clash_filled_complete g :
  no_clash g → entries_valid g → filled g → all_regions_complete g.
Proof.
  intros Hclash Hvalid Hfilled.
  assert (∀ r c, r < 9 → c < 9 → is_Some (value_at g r c)) as Hsome.
  { intros r c Hr Hc. destruct (Hfilled r c Hr Hc) as [d Hd].
    exists d. by apply value_at_Some. }
  assert (∀ r c d, value_at g r c = Some d → (1 ≤ d ≤ 9)%Z) as Hrange.
  { intros r c d Hd%value_at_Some. by eapply entries_valid_cell_at. }
  split; [| split].
  - intros r Hr. unfold row_values. apply complete_of_NoDup.
    + apply NoDup_omap_inj; [apply NoDup_seq |].
      intros c c' d Hc%elem_of_seq Hc'%elem_of_seq Hd%value_at_Some
        Hd'%value_at_Some.
      apply (Hclash r c r c' d); [lia.. | by left | done | done].
    + rewrite length_omap_all_Some, length_seq; [done |].
      intros c Hc%elem_of_seq. apply Hsome; lia.
    + intros d (c & _ & Hd)%list_elem_of_omap. by eapply Hrange.
  - intros c Hc. unfold column_values. apply complete_of_NoDup.
    + apply NoDup_omap_inj; [apply NoDup_seq |].
      intros r r' d Hr%elem_of_seq Hr'%elem_of_seq Hd%value_at_Some
        Hd'%value_at_Some.
      apply (Hclash r c r' c d); [lia.. | by right; left | done | done].
    + rewrite length_omap_all_Some, length_seq; [done |].
      intros r Hr%elem_of_seq. apply Hsome; lia.
    + intros d (r & _ & Hd)%list_elem_of_omap. by eapply Hrange.
  - intros bi bj Hbi Hbj. unfold block_values. apply complete_of_NoDup.
    + apply NoDup_omap_inj; [apply NoDup_seq |].
      intros k k' d Hk%elem_of_seq Hk'%elem_of_seq Hd%value_at_Some
        Hd'%value_at_Some.
      destruct (block_cell_bounds bi bj k Hbi Hbj ltac:(lia))
        as (Hr & Hc & Hrb & Hcb).
      destruct (block_cell_bounds bi bj k' Hbi Hbj ltac:(lia))
        as (Hr' & Hc' & Hrb' & Hcb').
      assert (same_region (3 * bi + k / 3) (3 * bj + k mod 3)
                (3 * bi + k' / 3) (3 * bj + k' mod 3)) as Hsame.
      { right. right. split; congruence. }
      destruct (Hclash _ _ _ _ d Hr Hc Hr' Hc' Hsame Hd Hd') as [Heq1 Heq2].
      rewrite (Nat.div_mod_eq k 3), (Nat.div_mod_eq k' 3). lia.
    + rewrite length_omap_all_Some, length_seq; [done |].
      intros k Hk%elem_of_seq.
      destruct (block_cell_bounds bi bj k Hbi Hbj ltac:(lia)) as (? & ? & _).
      by apply Hsome.
    + intros d (k & _ & Hd)%list_elem_of_omap. by eapply Hrange.
Qed.

Lemma check_spec s :
  well_formed (solution s) →
  ∃ b, check s = Ok b ∧ (b = true ↔ all_regions_complete (solution s)).
Proof.
  intros Hwf. unfold check.
  destruct (check_lines_spec s (seq 0 9) Hwf) as (bl & -> & Hbl).
  { apply Forall_forall. intros idx Hidx%elem_of_seq. lia. }
  simpl. rewrite Forall_forall in Hbl.
  destruct bl.
  - eexists. split; [done |]. rewrite (check_squares_spec s Hwf).
    destruct Hbl as [Hbl _]. specialize (Hbl eq_refl).
    unfold all_regions_complete. split.
    + intros Hblocks. repeat split; [| | done].
      * intros r Hr. apply (Hbl r). apply elem_of_seq. lia.
      * intros c Hc. apply (Hbl c). apply elem_of_seq. lia.
    + by intros (_ & _ & Hblocks).
  - exists false. split; [done |]. split; [done |].
    intros (Hrows & Hcols & _). apply Hbl.
    intros idx Hidx%elem_of_seq. split; [apply Hrows | apply Hcols]; lia.
Qed.

(** From the lists of values to pairs of cells. *)
Lemma regions_distinct_no_clash g : regions_distinct g → no_clash g.
Proof.
  intros (Hrows & Hcols & Hblocks) r c r' c' d Hr Hc Hr' Hc' Hsame Hd Hd'.
  rewrite Forall_forall in Hrows, Hcols, Hblocks.
  apply value_at_Some in Hd, Hd'.
  destruct (decide (r = r')) as [<- | Hrne].
  { split; [done |].
    pose proof (Hrows r ltac:(apply elem_of_seq; lia)) as Hnodup.
    unfold row_values, column_values, block_values in Hnodup.
    pose proof (proj1 (NoDup_omap_inj _ _ (NoDup_seq 0 9)) Hnodup) as Hinj.
    apply (Hinj c c' d); [apply elem_of_seq; lia.. | done | done]. }
  destruct (decide (c = c')) as [<- | Hcne].
  { split; [| done].
    pose proof (Hcols c ltac:(apply elem_of_seq; lia)) as Hnodup.
    unfold row_values, column_values, block_values in Hnodup.
    pose proof (proj1 (NoDup_omap_inj _ _ (NoDup_seq 0 9)) Hnodup) as Hinj.
    apply (Hinj r r' d); [apply elem_of_seq; lia.. | done | done]. }
  destruct Hsame as [? | [? | [Hrb Hcb]]]; [done.. |].
  assert (r / 3 < 3) by (apply Nat.Div0.div_lt_upper_bound; lia).
  assert (c / 3 < 3) by (apply Nat.Div0.div_lt_upper_bound; lia).
  pose proof (Nat.mod_upper_bound r 3 ltac:(lia)).
  pose proof (Nat.mod_upper_bound c 3 ltac:(lia)).
  pose proof (Nat.mod_upper_bound r' 3 ltac:(lia)).
  pose proof (Nat.mod_upper_bound c' 3 ltac:(lia)).
  pose proof (Hblocks (3 * (r / 3) + c / 3) ltac:(apply elem_of_seq; lia))
    as Hnodup.
  rewrite div_3_block, mod_3_block in Hnodup by done.
  unfold row_values, column_values, block_values in Hnodup.
    pose proof (proj1 (NoDup_omap_inj _ _ (NoDup_seq 0 9)) Hnodup) as Hinj.
  assert (3 * (r mod 3) + c mod 3 = 3 * (r' mod 3) + c' mod 3) as Hk.
  { apply (Hinj _ _ d).
    - apply elem_of_seq. lia.
    - apply elem_of_seq. lia.
    - rewrite div_3_block, mod_3_block by done.
      by rewrite <- !Nat.div_mod_eq.
    - rewrite div_3_block, mod_3_block by done.
      rewrite Hrb, Hcb. by rewrite <- !Nat.div_mod_eq. }
  pose proof (Nat.div_mod_eq r 3). pose proof (Nat.div_mod_eq r' 3).
  pose proof (Nat.div_mod_eq c 3). pose proof (Nat.div_mod_eq c' 3).
  lia.
Qed.

(** X7: partial correctness.  On a 9x9 grid of digits 1-9 in which no value
    is repeated in a row, column or block, a grid returned by [solve]
    passes [check]. *)
Theorem solve_result_passes_check (depth : nat) (s s' : Sudoku) g :
  well_formed (solution s) → entries_valid (solution s) →
  regions_distinct (solution s) →
  solve depth s = (Ok (Some g), s') → check s' = Ok true.
Proof.
  intros Hwf Hvalid Hdistinct Hsolve.
  pose proof (solve_snd depth s) as Hsnd. rewrite Hsolve in Hsnd. simpl in Hsnd.
  destruct (backtrack_solve_no_clash depth s Hwf
              (regions_distinct_no_clash _ Hdistinct)) as [Hwf' Hclash'].
  pose proof (backtrack_solve_entries_valid depth s Hvalid) as Hvalid'.
  rewrite <- Hsnd in Hwf', Hclash', Hvalid'.
  destruct (check_spec s' Hwf') as (b & Hb & Hiff). rewrite Hb. f_equal.
  apply Hiff, no_clash_filled_complete; [done.. |].
  unfold solve in Hsolve.
  destruct (backtrack_solve depth s) as [[[|]|e] s2] eqn:Hbs; [| done..].
  injection Hsolve as <- <-.
  by apply find_empty_None_filled, (backtrack_solve_true_full depth s).
Qed.

(** *** Grids and cells *)

Lemma well_formed_ext g g' :
  well_formed g → well_formed g' →
  (∀ r c, r < 9 → c < 9 → cell_at g r c = cell_at g' r c) → g = g'.
Proof.
  intros [Hlen Hall] [Hlen' Hall'] Hcells.
  apply list_eq_same_length with 9; [done.. |].
  intros c column column' Hc Hcol Hcol'.
  apply list_eq_same_length with 9.
  - by apply (Forall_lookup_1 _ _ _ _ Hall' Hcol').
  - by apply (Forall_lookup_1 _ _ _ _ Hall Hcol).
  - intros r v v' Hr Hv Hv'.
    specialize (Hcells r c Hr Hc). unfold cell_at in Hcells.
    rewrite Hcol, Hcol' in Hcells. simpl in Hcells. congruence.
Qed.

Lemma Sudoku_ext s s' :
  initial_board s = initial_board s' →
  well_formed (solution s) → well_formed (solution s') →
  (∀ r c, r < 9 → c < 9 →
          cell_at (solution s) r c = cell_at (solution s') r c) →
  s = s'.
Proof.
  intros Hinit Hwf Hwf' Hcells.
  destruct s as [ib g], s' as [ib' g']. simpl in *.
  f_equal; [done | by apply well_formed_ext].
Qed.

Lemma with_cell_restore s col row v w :
  well_formed (solution s) → col < 9 → row < 9 →
  cell_at (solution s) row col = Some w →
  with_cell (with_cell s col row v) col row w = s.
Proof.
  intros Hwf Hcol Hrow Hcell. apply Sudoku_ext; [done | | done |].
  - by do 2 apply well_formed_with_cell.
  - intros r c Hr Hc.
    pose proof (well_formed_with_cell s col row v Hwf) as Hwfv.
    rewrite cell_at_with_cell by done.
    case_decide as Heq; [by destruct Heq as [-> ->] |].
    rewrite cell_at_with_cell by done. by rewrite decide_False.
Qed.

Lemma with_cell_id s col row w :
  well_formed (solution s) → col < 9 → row < 9 →
  cell_at (solution s) row col = Some w → with_cell s col row w = s.
Proof.
  intros Hwf Hcol Hrow Hcell. apply Sudoku_ext; [done | | done |].
  - by apply well_formed_with_cell.
  - intros r c Hr Hc. rewrite cell_at_with_cell by done.
    case_decide as Heq; [by destruct Heq as [-> ->] | done].
Qed.

(** *** [find_empty], both ways *)

Lemma find_empty_first s j i :
  well_formed (solution s) → find_empty s = Ok (Some (j, i)) →
  first_empty_row_major (solution s) i j.
Proof.
  intros Hwf Hfind. unfold find_empty in Hfind.
  pose proof (find_empty_outer_spec s 0 9 Hwf ltac:(lia)) as Hspec.
  rewrite Hfind in Hspec.
  destruct Hspec as (i' & j' & [= -> ->] & Hi & Hj & Hempty & Hbefore).
  repeat split; [lia | done..|]. intros r c Hr Hc. apply Hbefore; lia.
Qed.

Lemma find_empty_complete s j i :
  well_formed (solution s) → first_empty_row_major (solution s) i j →
  find_empty s = Ok (Some (j, i)).
Proof.
  intros Hwf Hfirst.
  destruct (find_empty_Ok s Hwf) as [[[j' i']|] Hfind].
  - pose proof (find_empty_first s j' i' Hwf Hfind) as Hfirst'.
    by destruct (first_empty_row_major_unique _ _ _ _ _ Hfirst Hfirst')
      as [-> ->].
  - destruct Hfirst as (Hi & Hj & Hempty & _).
    by destruct (find_empty_None s Hwf Hfind i j Hi Hj).
Qed.

(** Writing a value at the transposed cell leaves the first empty cell
    where it is. *)
Lemma find_empty_after_place s j i num :
  well_formed (solution s) → find_empty s = Ok (Some (j, i)) → i ≠ j →
  find_empty (with_cell s i j (Some num)) = Ok (Some (j, i)).
Proof.
  intros Hwf Hfind Hne.
  destruct (find_empty_first s j i Hwf Hfind) as (Hi & Hj & Hempty & Hbefore).
  apply find_empty_complete; [by apply well_formed_with_cell |].
  repeat split; [done.. | |].
  - rewrite cell_at_with_cell by done. by rewrite decide_False by lia.
  - intros r c Hr Hc Hprec. rewrite cell_at_with_cell by done.
    case_decide; [done | by apply Hbefore].
Qed.

(** *** [is_valid] in terms of cells *)

Lemma same_region_bounds r c r' c' :
  r < 9 → c < 9 → r' / 3 = r / 3 → c' / 3 = c / 3 → r' < 9 ∧ c' < 9.
Proof.
  intros Hr Hc Hrb Hcb.
  pose proof (Nat.div_mod_eq r' 3). pose proof (Nat.div_mod_eq c' 3).
  pose proof (Nat.mod_upper_bound r' 3 ltac:(lia)).
  pose proof (Nat.mod_upper_bound c' 3 ltac:(lia)).
  pose proof (Nat.Div0.div_lt_upper_bound r 3 3 ltac:(lia)).
  pose proof (Nat.Div0.div_lt_upper_bound c 3 3 ltac:(lia)).
  lia.
Qed.

Lemma is_valid_true_iff s d r c :
  well_formed (solution s) → r < 9 → c < 9 →
  is_valid s d (c, r) = Ok true ↔
  ∀ r' c', r' < 9 → c' < 9 → same_region r c r' c' →
           cell_at (solution s) r' c' ≠ Some (Some d).
Proof.
  intros Hwf Hr Hc. split.
  - intros Hvalid r' c' Hr' Hc'. by apply is_valid_true_free.
  - intros Hfree.
    destruct (is_valid_spec s d r c Hwf Hr Hc) as ([|] & Hb & Hiff); [done |].
    destruct (proj1 Hiff eq_refl) as [(c' & Hc' & Hcell) |
      [(r' & Hr' & Hcell) | (r' & c' & Hrb & Hcb & Hcell)]].
    + by destruct (Hfree r c' Hr Hc' (or_introl eq_refl)).
    + by destruct (Hfree r' c Hr' Hc (or_intror (or_introl eq_refl))).
    + destruct (same_region_bounds r c r' c' Hr Hc Hrb Hcb) as [Hr' Hc'].
      by destruct (Hfree r' c' Hr' Hc'
                     (or_intror (or_intror (conj (eq_sym Hrb) (eq_sym Hcb))))).
Qed.

(** A candidate that is free at a cell is valid there whenever the cell
    holds something else. *)
Lemma free_candidate_valid s col row d w :
  well_formed (solution s) → col < 9 → row < 9 →
  free_candidate s col row d → w ≠ Some d →
  is_valid (with_cell s col row w) d (col, row) = Ok true.
Proof.
  intros Hwf Hcol Hrow Hfree Hw. unfold free_candidate in Hfree.
  pose proof (well_formed_with_cell s col row None Hwf) as Hwf0.
  pose proof (well_formed_with_cell s col row w Hwf) as Hwfw.
  rewrite is_valid_true_iff in Hfree by done.
  rewrite is_valid_true_iff by done.
  intros r' c' Hr' Hc' Hsame. specialize (Hfree r' c' Hr' Hc' Hsame).
  rewrite cell_at_with_cell in Hfree |- * by done.
  case_decide; [congruence | done].
Qed.

Lemma free_candidate_with_cell s col row d w :
  well_formed (solution s) → col < 9 → row < 9 →
  free_candidate s col row d → free_candidate (with_cell s col row w) col row d.
Proof.
  intros Hwf Hcol Hrow Hfree. unfold free_candidate in *.
  pose proof (well_formed_with_cell s col row None Hwf) as Hwf0.
  pose proof (well_formed_with_cell s col row w Hwf) as Hwfw.
  pose proof (well_formed_with_cell _ col row None Hwfw) as Hwfw0.
  rewrite is_valid_true_iff in Hfree by done.
  rewrite is_valid_true_iff by done.
  intros r' c' Hr' Hc' Hsame. specialize (Hfree r' c' Hr' Hc' Hsame).
  rewrite cell_at_with_cell in Hfree by done.
  rewrite cell_at_with_cell by done.
  case_decide; [done |]. rewrite cell_at_with_cell by done.
  by rewrite decide_False.
Qed.

(** *** When the search cannot return *)

Lemma try_candidates_diverges rec i j nums s :
  well_formed (solution s) → i < 9 → j < 9 →
  (∀ num, num ∈ nums → is_valid s num (i, j) = Ok true →
          (rec (with_cell s i j (Some num))).1 = Raise RecursionError) →
  (∃ num, num ∈ nums ∧ is_valid s num (i, j) = Ok true) →
  (try_candidates rec j i nums s).1 = Raise RecursionError.
Proof.
  intros Hwf Hi Hj. induction nums as [|num rest IH]; intros Hrec Hex.
  - by destruct Hex as (num & ?%elem_of_nil & _).
  - simpl. destruct (is_valid s num (i, j)) as [[|]|e] eqn:Hvalid.
    + rewrite (set_cell_Ok s i j (Some num) Hwf Hi Hj).
      specialize (Hrec num ltac:(by left) Hvalid).
      by destruct (rec (with_cell s i j (Some num))) as [[[|]|e] s2];
        simplify_eq/=.
    + apply IH.
      * intros num' Hin. apply Hrec. by right.
      * destruct Hex as (num' & [-> | Hin]%elem_of_cons & Hvalid');
          [congruence | by exists num'].
    + destruct (is_valid_Ok s num j i Hwf Hj Hi) as [b Hb]. congruence.
Qed.

Lemma backtrack_solve_diverges depth s j i v1 v2 :
  well_formed (solution s) → find_empty s = Ok (Some (j, i)) → i ≠ j →
  v1 ∈ range_1_10 → v2 ∈ range_1_10 → v1 ≠ v2 →
  free_candidate s i j v1 → free_candidate s i j v2 →
  (backtrack_solve depth s).1 = Raise RecursionError.
Proof.
  revert s. induction depth as [|depth IH];
    intros s Hwf Hfind Hne Hv1 Hv2 Hv12 Hfree1 Hfree2; [done |].
  destruct (find_empty_Some s j i Hwf Hfind) as (Hi & Hj & Hempty).
  rewrite backtrack_solve_S, Hfind.
  destruct (well_formed_cell_at _ j i Hwf Hj Hi) as [w Hw].
  pose proof (with_cell_id s i j w Hwf Hi Hj Hw) as Hsame.
  apply try_candidates_diverges; [done.. | |].
  - intros num _ Hvalid. apply IH; [by apply well_formed_with_cell | | done..| |].
    + by apply find_empty_after_place.
    + by apply free_candidate_with_cell.
    + by apply free_candidate_with_cell.
  - destruct (decide (w = Some v1)) as [-> | Hw1].
    + exists v2. split; [done |]. rewrite <- Hsame.
      apply free_candidate_valid; [done.. |]. congruence.
    + exists v1. split; [done |]. rewrite <- Hsame.
      by apply free_candidate_valid.
Qed.

(** X10: a general form of the endless recursion.  On a 9x9 grid whose first
    empty cell (row i, column j) is off the diagonal, if two different
    digits are free at the transposed cell (row j, column i), [solve] never
    returns: every allowed depth is exceeded. *)
Theorem solve_diverges (depth : nat) (s : Sudoku) (j i : nat) (v1 v2 : Z) :
  well_formed (solution s) → find_empty s = Ok (Some (j, i)) → i ≠ j →
  v1 ∈ range_1_10 → v2 ∈ range_1_10 → v1 ≠ v2 →
  free_candidate s i j v1 → free_candidate s i j v2 →
  (solve depth s).1 = Raise RecursionError.
Proof.
  intros Hwf Hfind Hne Hv1 Hv2 Hv12 Hfree1 Hfree2.
  pose proof (backtrack_solve_diverges depth s j i v1 v2 Hwf Hfind Hne Hv1 Hv2
                Hv12 Hfree1 Hfree2) as Hbs.
  unfold solve. by destruct (backtrack_solve depth s) as [[[|]|e] s'];
    simplify_eq/=.
Qed.

Lemma solve_diverges_witness :
  (solve 1000 (Sudoku_init example_board)).1 = Raise RecursionError.
Proof.
  apply (solve_diverges 1000 (Sudoku_init example_board) 2 0 2 3).
  - apply well_formed_Sudoku_init; [reflexivity | repeat constructor].
  - vm_compute; reflexivity.
  - lia.
  - apply elem_of_seqZ; lia.
  - apply elem_of_seqZ; lia.
  - lia.
  - vm_compute; reflexivity.
  - vm_compute; reflexivity.
Defined.

(** *** What a returned grid keeps *)

Lemma no_off_diagonal_with_cell s i v :
  well_formed (solution s) → i < 9 →
  ¬ has_off_diagonal_empty (solution s) →
  ¬ has_off_diagonal_empty (solution (with_cell s i i v)).
Proof.
  intros Hwf Hi Hoff (r & c & Hr & Hc & Hrc & Hempty). apply Hoff.
  exists r, c. repeat split; [done.. |].
  rewrite cell_at_with_cell in Hempty by done.
  by rewrite decide_False in Hempty by lia.
Qed.


Lemma try_candidates_diagonal rec i nums s :
  well_formed (solution s) → i < 9 →
  ¬ has_off_diagonal_empty (solution s) →
  cell_at (solution s) i i = Some None →
  (∀ s1, well_formed (solution s1) → ¬ has_off_diagonal_empty (solution s1) →
         diagonal_outcome s1 (rec s1)) →
  diagonal_outcome s (try_candidates rec i i nums s).
Proof.
  intros Hwf Hi Hoff Hempty Hrec.
  induction nums as [|num rest IH]; simpl; [done |].
  destruct (is_valid s num (i, i)) as [[|]|e]; [| done..].
  rewrite (set_cell_Ok s i i (Some num) Hwf Hi Hi).
  pose proof (well_formed_with_cell s i i (Some num) Hwf) as Hwf1.
  specialize (Hrec _ Hwf1 (no_off_diagonal_with_cell s i _ Hwf Hi Hoff)).
  destruct (rec (with_cell s i i (Some num))) as [[[|]|e] s2];
    unfold diagonal_outcome in Hrec |- *; cbv iota beta in Hrec |- *.
  - destruct Hrec as [Hinit Hkeeps]. split; [done |].
    intros r c d Hcell. apply Hkeeps.
    rewrite cell_at_with_cell by done.
    case_decide as Heq; [| done]. destruct Heq as [-> ->]. congruence.
  - subst s2. rewrite (set_cell_Ok _ i i None Hwf1 Hi Hi).
    by rewrite (with_cell_restore s i i (Some num) None Hwf Hi Hi Hempty).
  - done.
Qed.

Lemma backtrack_solve_diagonal depth s :
  well_formed (solution s) → ¬ has_off_diagonal_empty (solution s) →
  diagonal_outcome s (backtrack_solve depth s).
Proof.
  revert s. induction depth as [|depth IH]; intros s Hwf Hoff; [done |].
  rewrite backtrack_solve_S.
  destruct (find_empty_Ok s Hwf) as [[[j i]|] Hfind]; rewrite Hfind.
  - destruct (find_empty_Some s j i Hwf Hfind) as (Hi & Hj & Hempty).
    destruct (decide (i = j)) as [<- | Hne].
    + by apply try_candidates_diagonal.
    + destruct Hoff. by exists i, j.
  - split; [done |]. by intros r c d.
Qed.

(** X8: a grid returned by [solve] on a 9x9 grid keeps every value the
    working grid held before the call, and [initial_board] is untouched. *)
Theorem solve_result_keeps_values (depth : nat) (s s' : Sudoku) g :
  well_formed (solution s) →
  solve depth s = (Ok (Some g), s') →
  initial_board s' = initial_board s ∧ keeps_values (solution s) g.
Proof.
  intros Hwf Hsolve. unfold solve in Hsolve.
  destruct (backtrack_solve depth s) as [[[|]|e] s2] eqn:Hbs; [| done..].
  injection Hsolve as <- <-.
  assert (¬ has_off_diagonal_empty (solution s)) as Hoff.
  { intros Hoff.
    destruct (backtrack_solve_cannot_succeed depth s Hwf Hoff) as [Hnot _].
    by rewrite Hbs in Hnot. }
  pose proof (backtrack_solve_diagonal depth s Hwf Hoff) as Hout.
  by rewrite Hbs in Hout.
Qed.

(** *** A failed search on a grid without clash *)

Lemma try_candidates_restores rec j i nums s s' :
  well_formed (solution s) → no_clash (solution s) →
  entries_valid (solution s) → nums ⊆ range_1_10 →
  find_empty s = Ok (Some (j, i)) →
  (∀ s1 s2, well_formed (solution s1) → no_clash (solution s1) →
            entries_valid (solution s1) → rec s1 = (Ok false, s2) → s2 = s1) →
  (∀ s1 v1 v2, well_formed (solution s1) → find_empty s1 = Ok (Some (j, i)) →
               i ≠ j → v1 ∈ range_1_10 → v2 ∈ range_1_10 → v1 ≠ v2 →
               free_candidate s1 i j v1 → free_candidate s1 i j v2 →
               (rec s1).1 = Raise RecursionError) →
  try_candidates rec j i nums s = (Ok false, s') → s' = s.
Proof.
  intros Hwf Hclash Hvalid Hsub Hfind Hrestore Hdiverge.
  destruct (find_empty_Some s j i Hwf Hfind) as (Hi & Hj & Hempty).
  induction nums as [|num rest IH]; simpl; [by intros [= <-] |].
  assert (num ∈ range_1_10) as Hnum by (apply Hsub; left).
  assert (rest ⊆ range_1_10) as Hrest by (intros d Hd; apply Hsub; by right).
  destruct (is_valid s num (i, j)) as [[|]|e] eqn:Hnumvalid;
    [| by apply IH | done].
  rewrite (set_cell_Ok s i j (Some num) Hwf Hi Hj).
  pose proof (well_formed_with_cell s i j (Some num) Hwf) as Hwf1.
  pose proof (no_clash_place s i j num Hwf Hclash Hnumvalid) as Hclash1.
  assert (entries_valid (solution (with_cell s i j (Some num)))) as Hvalid1.
  { apply with_cell_entries_valid; [| done]. simpl.
    apply elem_of_seqZ in Hnum. lia. }
  destruct (rec (with_cell s i j (Some num))) as [[[|]|e] s2] eqn:Hrec;
    [done | | done].
  rewrite (Hrestore _ _ Hwf1 Hclash1 Hvalid1 Hrec).
  rewrite (set_cell_Ok _ i j None Hwf1 Hi Hj).
  destruct (well_formed_cell_at _ j i Hwf Hj Hi) as [[d0|] Hw].
  - exfalso.
    assert (i ≠ j) as Hne by (intros ->; congruence).
    assert (num ≠ d0) as Hnd.
    { intros ->.
      by destruct (is_valid_true_free s d0 j i j i Hwf Hj Hi Hj Hi Hnumvalid
                     (or_introl eq_refl)). }
    assert (free_candidate s i j d0) as Hfree0.
    { unfold free_candidate.
      pose proof (well_formed_with_cell s i j None Hwf) as Hwf0.
      rewrite is_valid_true_iff by done.
      intros r' c' Hr' Hc' Hsame. rewrite cell_at_with_cell by done.
      case_decide as Heq; [done |]. intros Hcell.
      destruct (Hclash j i r' c' d0 Hj Hi Hr' Hc' Hsame Hw Hcell) as [-> ->].
      by destruct Heq. }
    assert (free_candidate s i j num) as Hfreen.
    { unfold free_candidate.
      pose proof (well_formed_with_cell s i j None Hwf) as Hwf0.
      rewrite is_valid_true_iff by done.
      intros r' c' Hr' Hc' Hsame. rewrite cell_at_with_cell by done.
      case_decide as Heq; [done |].
      by apply (is_valid_true_free s num j i). }
    pose proof (Hdiverge (with_cell s i j (Some num)) d0 num Hwf1
                  (find_empty_after_place s j i num Hwf Hfind Hne) Hne
                  ltac:(apply elem_of_seqZ;
                        pose proof (entries_valid_cell_at _ _ _ _ Hvalid Hw); lia)
                  Hnum ltac:(congruence)
                  (free_candidate_with_cell s i j d0 _ Hwf Hi Hj Hfree0)
                  (free_candidate_with_cell s i j num _ Hwf Hi Hj Hfreen))
      as Hraise.
    by rewrite Hrec in Hraise.
  - rewrite (with_cell_restore s i j (Some num) None Hwf Hi Hj Hw). apply IH.
    done.
Qed.

Lemma backtrack_solve_restores depth s s' :
  well_formed (solution s) → no_clash (solution s) →
  entries_valid (solution s) →
  backtrack_solve depth s = (Ok false, s') → s' = s.
Proof.
  revert s s'. induction depth as [|depth IH];
    intros s s' Hwf Hclash Hvalid; [done |].
  rewrite backtrack_solve_S.
  destruct (find_empty s) as [[[j i]|]|e] eqn:Hfind; [| done..].
  apply try_candidates_restores; [done.. | |].
  - intros s1 s2. apply IH.
  - intros s1 v1 v2. apply backtrack_solve_diverges.
Qed.

(** X11: on a 9x9 grid of digits 1-9 in which no value is repeated in a row,
    column or block, a [solve] that returns [None] leaves the object
    exactly as it was. *)
Theorem solve_failure_restores (depth : nat) (s s' : Sudoku) :
  well_formed (solution s) → entries_valid (solution s) →
  regions_distinct (solution s) →
  solve depth s = (Ok None, s') → s' = s.
Proof.
  intros Hwf Hvalid Hdistinct Hsolve. unfold solve in Hsolve.
  destruct (backtrack_solve depth s) as [[[|]|e] s2] eqn:Hbs; [done | | done].
  injection Hsolve as <-.
  by apply (backtrack_solve_restores depth s s2 Hwf
              (regions_distinct_no_clash _ Hdistinct) Hvalid).
Qed.

(** *** The queries on any object *)

Lemma list_comp_Raise {A B} (f : A → result B) l e :
  list_comp f l = Raise e → Exists (λ x, f x = Raise e) l.
Proof.
  induction l as [|x l IH]; simpl; [done |].
  destruct (f x) as [y|e'] eqn:Hx; simpl.
  - destruct (list_comp f l) as [ys|e'] eqn:Hl; simpl; [done |].
    intros [= ->]. right. by apply IH.
  - intros [= ->]. by left.
Qed.

Lemma list_comp_index_bounds {A} (g : list (list A)) idx l :
  list_comp (λ column, index column idx) g = Ok l →
  Forall (λ column, idx < length column) g.
Proof.
  rewrite list_comp_Ok.
  induction 1 as [|column v g' l' Hv _ IH]; constructor; [| done].
  apply index_Ok in Hv. by apply lookup_lt_Some in Hv.
Qed.

(** X12: [get_row(idx)] on any object either returns entry [idx] of every
    stored column, one per column, or raises [IndexError], and it raises
    exactly when some stored column has no entry [idx]. *)
Theorem get_row_any_object (s : Sudoku) (idx : nat) :
  match get_row s idx with
  | Ok l =>
      length l = length (solution s) ∧
      (∀ c, l !! c = cell_at (solution s) idx c) ∧
      Forall (λ column : list (option Z), idx < length column) (solution s)
  | Raise e =>
      e = IndexError ∧
      Exists (λ column : list (option Z), length column ≤ idx) (solution s)
  end.
Proof.
  destruct (get_row s idx) as [l|e] eqn:Hrow.
  - split; [| split].
    + unfold get_row in Hrow. apply list_comp_Ok in Hrow.
      symmetry. by eapply Forall2_length.
    + intros c. by apply get_row_lookup.
    + by apply (list_comp_index_bounds _ idx l).
  - unfold get_row in Hrow. apply list_comp_Raise in Hrow.
    assert (e = IndexError) as ->.
    { apply Exists_exists in Hrow as (column & _ & Hcol).
      unfold index in Hcol. destruct (column !! idx); congruence. }
    split; [done |]. eapply Exists_impl; [exact Hrow |].
    intros column Hcol. unfold index in Hcol.
    destruct (column !! idx) eqn:Hlookup; [done |].
    by apply lookup_ge_None.
Qed.


(** *** The constructor on a valid input *)

Lemma int_or_None_valid e : valid_entry e → int_or_None e = e.
Proof.
  destruct e as [z|]; simpl; [| done]. intros Hz.
  rewrite bool_decide_eq_false_2; [done | lia].
Qed.

Lemma valid_input_entry board r c row e :
  valid_input board → board !! r = Some row → row !! c = Some e →
  valid_entry e.
Proof.
  intros [_ Hall] Hrow He.
  destruct (Forall_lookup_1 _ _ _ _ Hall Hrow) as [_ Hentries].
  exact (Forall_lookup_1 _ _ _ _ Hentries He).
Qed.

Lemma valid_input_cell_at board r c row :
  valid_input board → board !! r = Some row → c < 9 →
  cell_at (solution (Sudoku_init board)) r c = row !! c.
Proof.
  intros Hvalid Hrow Hc.
  destruct (valid_input_dimensions board Hvalid) as [Hlen Hall].
  pose proof (Forall_lookup_1 _ _ _ _ Hall Hrow) as Hrowlen. simpl in Hrowlen.
  destruct (lookup_lt_is_Some_2 row c) as [e He]; [lia |].
  rewrite (cell_at_Sudoku_init board r c row e Hrow He).
  - rewrite He. f_equal. apply int_or_None_valid.
    by eapply valid_input_entry.
  - eapply Forall_impl; [exact Hall |]. intros row' Hrow'. simpl in *. lia.
Qed.

(** X14: round trip.  After construction from a valid input, [get_row(r)]
    gives back row [r] of the input as it was passed. *)
Theorem get_row_Sudoku_init (board : list (list (option Z))) (r : nat) row :
  valid_input board → board !! r = Some row →
  get_row (Sudoku_init board) r = Ok row.
Proof.
  intros Hvalid Hrow.
  destruct (valid_input_dimensions board Hvalid) as [Hlen Hall].
  pose proof (well_formed_Sudoku_init board Hlen Hall) as Hwf.
  assert (r < 9) as Hr by (apply lookup_lt_Some in Hrow; lia).
  destruct (get_row_Ok _ r Hwf Hr) as (l & Hl & Hlenl).
  rewrite Hl. f_equal.
  pose proof (Forall_lookup_1 _ _ _ _ Hall Hrow) as Hrowlen. simpl in Hrowlen.
  apply list_eq_same_length with 9; [done.. |].
  intros c v v' Hc Hv Hv'.
  rewrite (get_row_lookup _ r l c Hl) in Hv.
  rewrite (valid_input_cell_at board r c row Hvalid Hrow Hc) in Hv.
  congruence.
Qed.

(** X15: after construction from a valid input, [get_column(c)] is column
    [c] of the input from top to bottom. *)
Theorem get_column_Sudoku_init (board : list (list (option Z))) (c : nat) :
  valid_input board → c < 9 →
  ∃ l, get_column (Sudoku_init board) c = Ok l ∧ length l = 9 ∧
       ∀ r row, board !! r = Some row → l !! r = row !! c.
Proof.
  intros Hvalid Hc.
  destruct (valid_input_dimensions board Hvalid) as [Hlen Hall].
  pose proof (well_formed_Sudoku_init board Hlen Hall) as Hwf.
  destruct (get_column_Ok _ c Hwf Hc) as (l & Hl & Hlenl & Hcells).
  exists l. repeat split; [done.. |].
  intros r row Hrow. rewrite Hcells. by apply valid_input_cell_at.
Qed.

Lemma entries_valid_Sudoku_init board :
  valid_input board → entries_valid (solution (Sudoku_init board)).
Proof.
  intros Hvalid.
  destruct (valid_input_dimensions board Hvalid) as [Hlen Hall].
  pose proof (well_formed_Sudoku_init board Hlen Hall) as [Hlen' Hall'].
  apply Forall_lookup_2. intros c column Hcol.
  apply Forall_lookup_2. intros r v Hv.
  assert (c < 9) as Hc by (apply lookup_lt_Some in Hcol; lia).
  pose proof (Forall_lookup_1 _ _ _ _ Hall' Hcol) as Hcollen. simpl in Hcollen.
  assert (r < 9) as Hr by (apply lookup_lt_Some in Hv; lia).
  destruct (lookup_lt_is_Some_2 board r) as [row Hrow]; [lia |].
  pose proof (valid_input_cell_at board r c row Hvalid Hrow Hc) as Hcell.
  unfold cell_at in Hcell. rewrite Hcol in Hcell. simpl in Hcell.
  rewrite Hv in Hcell. symmetry in Hcell.
  by eapply valid_input_entry.
Qed.

(** *** [__repr__] *)





(** The template holds 81 directives: the operator accepts 81 arguments and
    no other number. *)
Lemma percent_format_table args :
  is_Some (percent_format table_template args) ↔ length args = 81.
Proof.
  do 81 (destruct args as [|? args];
         [split; [intros [out Hout]; vm_compute in Hout; discriminate
                 | discriminate] |]).
  destruct args as [|? args].
  - split; [reflexivity |]. intros _. vm_compute. by eexists.
  - split; [| discriminate].
    intros [out Hout]. vm_compute in Hout. discriminate.
Qed.

(** X17: [__repr__] returns a string exactly when the two grids yield 81
    cells; with any other number of cells the [%] operator raises. *)
Theorem repr_returns_iff (s : Sudoku) :
  is_Some (repr s) ↔ length (rendered_cells s) = 81.
Proof.
  rewrite <- percent_format_table. unfold repr.
  destruct (percent_format table_template (rendered_cells s)); simpl.
  - split; by eexists.
  - split; by intros [? ?].
Qed.

(** *** Facts about the boards used as witnesses *)

Lemma example_board_well_formed :
  well_formed (solution (Sudoku_init example_board)).
Proof. apply well_formed_Sudoku_init; [reflexivity | repeat constructor]. Qed.

Lemma diagonal_blanks_well_formed :
  well_formed (solution (Sudoku_init diagonal_blanks_board)).
Proof. apply well_formed_Sudoku_init; [reflexivity | repeat constructor]. Qed.

Lemma one_blank_well_formed :
  well_formed (solution (Sudoku_init one_blank_board)).
Proof. apply well_formed_Sudoku_init; [reflexivity | repeat constructor]. Qed.

Lemma solve_diagonal_blanks :
  solve 3 (Sudoku_init diagonal_blanks_board)
  = (Ok (Some (solution diagonal_solved)), diagonal_solved).
Proof. vm_compute; reflexivity. Qed.

(** *** The frame of [solve] *)

(** X1: whatever its outcome, exceptions included, [solve] leaves
    [initial_board] untouched and the working grid with the same number of
    columns of the same lengths. *)
Theorem solve_keeps_frame (depth : nat) (s : Sudoku) :
  initial_board (solve depth s).2 = initial_board s ∧
  same_shape (solution s) (solution (solve depth s).2).
Proof. rewrite solve_snd. apply backtrack_solve_keeps_frame. Qed.

(** X2: constructed from a valid input, the working grid holds only empty
    cells and digits 1-9, and still does whatever the outcome of [solve]. *)
Theorem solve_keeps_entries_valid (depth : nat) (board : list (list (option Z))) :
  valid_input board →
  entries_valid (solution (Sudoku_init board)) ∧
  entries_valid (solution (solve depth (Sudoku_init board)).2).
Proof.
  intros Hvalid. pose proof (entries_valid_Sudoku_init board Hvalid) as Hinit.
  split; [done |]. rewrite solve_snd. by apply backtrack_solve_entries_valid.
Qed.

Lemma solve_keeps_entries_valid_witness :
  entries_valid (solution (Sudoku_init example_board)) ∧
  entries_valid (solution (solve 7 (Sudoku_init example_board)).2).
Proof.
  apply (solve_keeps_entries_valid 7 example_board).
  apply (bool_decide_unpack _). by vm_compute.
Defined.

Lemma solve_returns_filled_grid_witness :
  solution diagonal_solved = solution diagonal_solved ∧
  filled (solution diagonal_solved).
Proof.
  apply (solve_returns_filled_grid 3 (Sudoku_init diagonal_blanks_board)
           diagonal_solved).
  vm_compute; reflexivity.
Defined.

Lemma solve_again_is_noop_witness :
  solve 1 diagonal_solved = (Ok (Some (solution diagonal_solved)), diagonal_solved).
Proof.
  apply (solve_again_is_noop 3 0 (Sudoku_init diagonal_blanks_board)).
  vm_compute; reflexivity.
Defined.

Lemma solve_depth_mono_witness :
  solve 10 (Sudoku_init diagonal_blanks_board)
  = (Ok (Some (solution diagonal_solved)), diagonal_solved).
Proof.
  apply (solve_depth_mono 3 10); [lia | vm_compute; reflexivity].
Defined.

Lemma diagonal_blanks_regions_distinct :
  regions_distinct (solution (Sudoku_init diagonal_blanks_board)).
Proof.
  unfold regions_distinct. repeat split; apply (bool_decide_unpack _); by vm_compute.
Qed.

Lemma solve_result_passes_check_witness : check diagonal_solved = Ok true.
Proof.
  apply (solve_result_passes_check 3 (Sudoku_init diagonal_blanks_board)
           diagonal_solved (solution diagonal_solved)).
  - apply well_formed_Sudoku_init; [reflexivity | repeat constructor].
  - apply (bool_decide_unpack _). by vm_compute.
  - unfold regions_distinct.
    repeat split; apply (bool_decide_unpack _); by vm_compute.
  - vm_compute; reflexivity.
Defined.

Lemma solve_result_keeps_values_witness :
  initial_board diagonal_solved
  = initial_board (Sudoku_init diagonal_blanks_board) ∧
  keeps_values (solution (Sudoku_init diagonal_blanks_board))
               (solution diagonal_solved).
Proof.
  apply (solve_result_keeps_values 3 (Sudoku_init diagonal_blanks_board)
           diagonal_solved).
  - apply well_formed_Sudoku_init; [reflexivity | repeat constructor].
  - vm_compute; reflexivity.
Defined.

Lemma solve_never_fills_off_diagonal_witness :
  (solve 1000 (Sudoku_init example_board)).1
  ≠ Ok (Some (solution (Sudoku_init solved_board))).
Proof.
  apply (solve_never_fills_off_diagonal 1000 (Sudoku_init example_board)).
  - apply well_formed_Sudoku_init; [reflexivity | repeat constructor].
  - exists 0, 2. split; [lia |]. split; [lia |]. split; [lia | reflexivity].
Defined.

Lemma solve_failure_restores_witness :
  solve 1 (Sudoku_init one_blank_board) = (Ok None, Sudoku_init one_blank_board) ∧
  Sudoku_init one_blank_board = Sudoku_init one_blank_board.
Proof.
  split; [vm_compute; reflexivity |].
  apply (solve_failure_restores 1 (Sudoku_init one_blank_board)).
  - apply well_formed_Sudoku_init; [reflexivity | repeat constructor].
  - apply (bool_decide_unpack _). by vm_compute.
  - unfold regions_distinct.
    repeat split; apply (bool_decide_unpack _); by vm_compute.
  - vm_compute; reflexivity.
Defined.

Lemma get_row_Sudoku_init_witness :
  get_row (Sudoku_init example_board) 0
  = Ok [Some 4; Some 1; None; Some 3; None; Some 6; None; Some 9; Some 7]%Z.
Proof.
  apply (get_row_Sudoku_init example_board 0).
  - apply (bool_decide_unpack _). by vm_compute.
  - reflexivity.
Defined.

Lemma get_column_Sudoku_init_witness :
  ∃ l, get_column (Sudoku_init example_board) 3 = Ok l ∧ length l = 9 ∧
       ∀ r row, example_board !! r = Some row → l !! r = row !! 3.
Proof.
  apply (get_column_Sudoku_init example_board 3).
  - apply (bool_decide_unpack _). by vm_compute.
  - lia.
Defined.


(** X18: each of the three region checks on a 9x9 grid.  [check_row(r)] and
    [check_column(c)] return, and return [True] exactly when the non-empty
    values of the row, of the column, are 1..9 as a set;
    [check_nine_square(x, y)] is [True] exactly when those of the block of
    rows 3y..3y+2 and columns 3x..3x+2 are. *)
Theorem region_checks_iff (s : Sudoku) (r c x y : nat) :
  well_formed (solution s) → r < 9 → c < 9 → x < 3 → y < 3 →
  (∃ b, check_row s r = Ok b ∧
        (b = true ↔ complete (row_values (solution s) r))) ∧
  (∃ b, check_column s c = Ok b ∧
        (b = true ↔ complete (column_values (solution s) c))) ∧
  (check_nine_square s x y = true ↔ complete (block_values (solution s) y x)).
Proof.
  intros Hwf Hr Hc Hx Hy. split; [| split].
  - by apply check_row_spec.
  - by apply check_column_spec.
  - by apply check_nine_square_spec.
Qed.

Lemma region_checks_iff_witness :
  (∃ b, check_row diagonal_solved 0 = Ok b ∧
        (b = true ↔ complete (row_values (solution diagonal_solved) 0))) ∧
  (∃ b, check_column diagonal_solved 4 = Ok b ∧
        (b = true ↔ complete (column_values (solution diagonal_solved) 4))) ∧
  (check_nine_square diagonal_solved 2 0 = true ↔
   complete (block_values (solution diagonal_solved) 0 2)).
Proof.
  apply (region_checks_iff diagonal_solved 0 4 2 0);
    [apply (well_formed_Sudoku_init solved_board);
       [reflexivity | repeat constructor]
    | lia..].
Defined.

(** *** Where the search works: blanks on the diagonal only *)

Lemma length_filter_lt {A} (P Q : A → Prop)
    `{!∀ x, Decision (P x), !∀ x, Decision (Q x)} (l : list A) x :
  (∀ y, y ∈ l → P y → Q y) → x ∈ l → Q x → ¬ P x →
  length (filter P l) < length (filter Q l).
Proof.
  intros Himp Hx HQ HP.
  assert (∀ l', (∀ y, y ∈ l' → P y → Q y) →
                length (filter P l') ≤ length (filter Q l')) as Hle.
  { induction l' as [|y l' IH]; intros Hl'; [done |].
    rewrite !filter_cons.
    assert (length (filter P l') ≤ length (filter Q l')) as Hrec.
    { apply IH. intros z Hz. apply Hl'. by right. }
    destruct (decide (P y)) as [HPy | HPy].
    - rewrite decide_True by (apply Hl'; [by left | done]). simpl. lia.
    - destruct (decide (Q y)); simpl; lia. }
  induction l as [|y l IH]; [by apply elem_of_nil in Hx |].
  rewrite !filter_cons.
  assert (∀ z, z ∈ l → P z → Q z) as Himp' by (intros z Hz; apply Himp; by right).
  apply elem_of_cons in Hx as [<- | Hx].
  - rewrite decide_False, decide_True by done. simpl.
    specialize (Hle l Himp'). lia.
  - specialize (IH Himp' Hx).
    destruct (decide (P y)) as [HPy | HPy].
    + rewrite decide_True by (apply Himp; [by left | done]). simpl. lia.
    + destruct (decide (Q y)); simpl; lia.
Qed.

Lemma diagonal_empties_le g : diagonal_empties g ≤ 9.
Proof.
  unfold diagonal_empties.
  etrans; [apply length_filter |]. by rewrite length_seq.
Qed.

Lemma diagonal_empties_place s i num :
  well_formed (solution s) → i < 9 → cell_at (solution s) i i = Some None →
  diagonal_empties (solution (with_cell s i i (Some num)))
  < diagonal_empties (solution s).
Proof.
  intros Hwf Hi Hempty. unfold diagonal_empties.
  apply (length_filter_lt _ _ _ i).
  - intros k _. rewrite cell_at_with_cell by done.
    case_decide; [done | done].
  - apply elem_of_seq. lia.
  - done.
  - rewrite cell_at_with_cell by done. by rewrite decide_True.
Qed.

Lemma find_empty_diagonal s j i :
  well_formed (solution s) → ¬ has_off_diagonal_empty (solution s) →
  find_empty s = Ok (Some (j, i)) →
  i = j ∧ i < 9 ∧ cell_at (solution s) i i = Some None.
Proof.
  intros Hwf Hoff Hfind.
  destruct (find_empty_Some s j i Hwf Hfind) as (Hi & Hj & Hempty).
  destruct (decide (i = j)) as [<- | Hne]; [done |].
  destruct Hoff. by exists i, j.
Qed.

(** The loop returns when each recursive call does. *)
Lemma try_candidates_diagonal_returns rec i nums s :
  well_formed (solution s) → i < 9 →
  ¬ has_off_diagonal_empty (solution s) →
  cell_at (solution s) i i = Some None →
  (∀ num, ∃ b s2, rec (with_cell s i i (Some num)) = (Ok b, s2) ∧
                  (b = false → s2 = with_cell s i i (Some num))) →
  ∃ b s', try_candidates rec i i nums s = (Ok b, s').
Proof.
  intros Hwf Hi Hoff Hempty Hrec.
  induction nums as [|num rest IH]; simpl; [by eexists _, _ |].
  destruct (is_valid_Ok s num i i Hwf Hi Hi) as [[|] ->]; [| done].
  rewrite (set_cell_Ok s i i (Some num) Hwf Hi Hi).
  destruct (Hrec num) as ([|] & s2 & -> & Hs2); [by eexists _, _ |].
  rewrite (Hs2 eq_refl).
  rewrite (set_cell_Ok _ i i None (well_formed_with_cell s i i _ Hwf) Hi Hi).
  by rewrite (with_cell_restore s i i (Some num) None Hwf Hi Hi Hempty).
Qed.

Lemma backtrack_solve_diagonal_returns depth s :
  well_formed (solution s) → ¬ has_off_diagonal_empty (solution s) →
  diagonal_empties (solution s) < depth →
  ∃ b s', backtrack_solve depth s = (Ok b, s').
Proof.
  revert s. induction depth as [|depth IH]; intros s Hwf Hoff Hlt; [lia |].
  rewrite backtrack_solve_S.
  destruct (find_empty_Ok s Hwf) as [[[j i]|] Hfind]; rewrite Hfind;
    [| by eexists _, _].
  destruct (find_empty_diagonal s j i Hwf Hoff Hfind) as (<- & Hi & Hempty).
  apply try_candidates_diagonal_returns; [done.. |].
  intros num.
  pose proof (well_formed_with_cell s i i (Some num) Hwf) as Hwf1.
  pose proof (no_off_diagonal_with_cell s i (Some num) Hwf Hi Hoff) as Hoff1.
  pose proof (diagonal_empties_place s i num Hwf Hi Hempty) as Hless.
  destruct (IH _ Hwf1 Hoff1 ltac:(lia)) as (b & s2 & Hbs).
  exists b, s2. split; [done |]. intros ->.
  pose proof (backtrack_solve_diagonal depth _ Hwf1 Hoff1) as Hout.
  by rewrite Hbs in Hout.
Qed.

(** X19: termination where the search works.  On a 9x9 grid whose empty cells
    all lie on the main diagonal, [solve] returns, a grid or [None], as
    soon as 10 nested calls are allowed. *)
Theorem solve_diagonal_returns (depth : nat) (s : Sudoku) :
  well_formed (solution s) → ¬ has_off_diagonal_empty (solution s) →
  10 ≤ depth → ∃ o s', solve depth s = (Ok o, s').
Proof.
  intros Hwf Hoff Hdepth.
  pose proof (diagonal_empties_le (solution s)) as Hle.
  destruct (backtrack_solve_diagonal_returns depth s Hwf Hoff ltac:(lia))
    as (b & s' & Hbs).
  unfold solve. rewrite Hbs. destruct b; by eexists _, _.
Qed.

(** *** Completeness on the diagonal *)

Lemma completes_valid s full i :
  well_formed (solution s) → i < 9 → cell_at (solution s) i i = Some None →
  completes (solution s) full →
  ∃ d, cell_at full i i = Some (Some d) ∧ d ∈ range_1_10 ∧
       is_valid s d (i, i) = Ok true ∧
       completes (solution (with_cell s i i (Some d))) full.
Proof.
  intros Hwf Hi Hempty (Hwff & Hfilled & Hclash & Hvalid & Hkeeps).
  destruct (Hfilled i i Hi Hi) as [d Hd]. exists d. split; [done |].
  split; [| split].
  - apply elem_of_seqZ.
    pose proof (entries_valid_cell_at _ _ _ _ Hvalid Hd). lia.
  - apply is_valid_true_iff; [done.. |].
    intros r' c' Hr' Hc' Hsame Hcell.
    destruct (Hclash i i r' c' d Hi Hi Hr' Hc' Hsame Hd (Hkeeps _ _ _ Hcell))
      as [<- <-].
    congruence.
  - split; [done |]. split; [done |]. split; [done |]. split; [done |].
    intros r c d' Hcell. rewrite cell_at_with_cell in Hcell by done.
    case_decide as Heq; [| by apply Hkeeps].
    destruct Heq as [-> ->]. congruence.
Qed.

Lemma try_candidates_diagonal_complete rec i nums s d :
  well_formed (solution s) → i < 9 →
  ¬ has_off_diagonal_empty (solution s) →
  cell_at (solution s) i i = Some None →
  is_valid s d (i, i) = Ok true → d ∈ nums →
  (∀ num, ∃ b s2, rec (with_cell s i i (Some num)) = (Ok b, s2) ∧
                  (b = false → s2 = with_cell s i i (Some num))) →
  (∃ s2, rec (with_cell s i i (Some d)) = (Ok true, s2)) →
  ∃ s', try_candidates rec i i nums s = (Ok true, s').
Proof.
  intros Hwf Hi Hoff Hempty Hd Hin Hrec [sd Hrecd].
  induction nums as [|num rest IH]; [by apply elem_of_nil in Hin |].
  simpl. destruct (is_valid s num (i, i)) as [[|]|e] eqn:Hnum.
  - rewrite (set_cell_Ok s i i (Some num) Hwf Hi Hi).
    destruct (Hrec num) as ([|] & s2 & Hs2 & Hsame); rewrite Hs2;
      [by eexists |].
    rewrite (Hsame eq_refl).
    rewrite (set_cell_Ok _ i i None (well_formed_with_cell s i i _ Hwf) Hi Hi).
    rewrite (with_cell_restore s i i (Some num) None Hwf Hi Hi Hempty).
    apply IH. apply elem_of_cons in Hin as [-> | Hin]; [| done].
    congruence.
  - apply IH. apply elem_of_cons in Hin as [-> | Hin]; [congruence | done].
  - destruct (is_valid_Ok s num i i Hwf Hi Hi) as [b Hb]. congruence.
Qed.

Lemma backtrack_solve_diagonal_complete depth s full :
  well_formed (solution s) → ¬ has_off_diagonal_empty (solution s) →
  diagonal_empties (solution s) < depth → completes (solution s) full →
  ∃ s', backtrack_solve depth s = (Ok true, s').
Proof.
  revert s. induction depth as [|depth IH]; intros s Hwf Hoff Hlt Hfull; [lia |].
  rewrite backtrack_solve_S.
  destruct (find_empty_Ok s Hwf) as [[[j i]|] Hfind]; rewrite Hfind;
    [| by eexists].
  destruct (find_empty_diagonal s j i Hwf Hoff Hfind) as (<- & Hi & Hempty).
  destruct (completes_valid s full i Hwf Hi Hempty Hfull)
    as (d & Hd & Hrange & Hvalid & Hfull1).
  assert (∀ num, well_formed (solution (with_cell s i i (Some num))) ∧
                 ¬ has_off_diagonal_empty (solution (with_cell s i i (Some num))) ∧
                 diagonal_empties (solution (with_cell s i i (Some num))) < depth)
    as Hstep.
  { intros num. split; [by apply well_formed_with_cell |].
    split; [by apply no_off_diagonal_with_cell |].
    pose proof (diagonal_empties_place s i num Hwf Hi Hempty). lia. }
  apply (try_candidates_diagonal_complete _ i _ s d); [done.. | |].
  - intros num. destruct (Hstep num) as (Hwf1 & Hoff1 & Hlt1).
    destruct (backtrack_solve_diagonal_returns depth _ Hwf1 Hoff1 Hlt1)
      as (b & s2 & Hbs).
    exists b, s2. split; [done |]. intros ->.
    pose proof (backtrack_solve_diagonal depth _ Hwf1 Hoff1) as Hout.
    by rewrite Hbs in Hout.
  - destruct (Hstep d) as (Hwf1 & Hoff1 & Hlt1). by apply IH.
Qed.

Lemma completes_no_clash g full : completes g full → no_clash g.
Proof.
  intros (_ & _ & Hclash & _ & Hkeeps) r c r' c' d Hr Hc Hr' Hc' Hsame Hd Hd'.
  apply (Hclash r c r' c' d); auto.
Qed.

Lemma completes_entries_valid g full :
  completes g full → entries_valid g.
Proof.
  intros (_ & _ & _ & Hvalid & Hkeeps).
  apply Forall_lookup_2. intros c column Hcol.
  apply Forall_lookup_2. intros r [d|] Hv; [| done].
  assert (cell_at g r c = Some (Some d)) as Hcell.
  { unfold cell_at. by rewrite Hcol. }
  simpl. by eapply entries_valid_cell_at, Hkeeps.
Qed.

(** X20: completeness where the search works.  On a 9x9 grid whose empty
    cells all lie on the main diagonal and which some solved grid
    completes, [solve] returns a grid as soon as 10 nested calls are
    allowed, and that grid passes [check]. *)
Theorem solve_diagonal_complete (depth : nat) (s : Sudoku) full :
  well_formed (solution s) → ¬ has_off_diagonal_empty (solution s) →
  10 ≤ depth → completes (solution s) full →
  ∃ g s', solve depth s = (Ok (Some g), s') ∧ check s' = Ok true.
Proof.
  intros Hwf Hoff Hdepth Hfull.
  pose proof (diagonal_empties_le (solution s)) as Hle.
  destruct (backtrack_solve_diagonal_complete depth s full Hwf Hoff
              ltac:(lia) Hfull) as [s' Hbs].
  exists (solution s'), s'. split; [unfold solve; by rewrite Hbs |].
  assert ((backtrack_solve depth s).2 = s') as Hsnd by (by rewrite Hbs).
  destruct (backtrack_solve_no_clash depth s Hwf (completes_no_clash _ _ Hfull))
    as [Hwf' Hclash'].
  pose proof (backtrack_solve_entries_valid depth s
                (completes_entries_valid _ _ Hfull)) as Hvalid'.
  rewrite Hsnd in Hwf', Hclash', Hvalid'.
  destruct (check_spec s' Hwf') as (b & Hb & Hiff). rewrite Hb. f_equal.
  apply Hiff, no_clash_filled_complete; [done.. |].
  by apply find_empty_None_filled, (backtrack_solve_true_full depth s).
Qed.

Lemma diagonal_blanks_no_off_diagonal :
  ¬ has_off_diagonal_empty (solution (Sudoku_init diagonal_blanks_board)).
Proof.
  intros (r & c & Hr & Hc & Hne & Hcell).
  do 9 (destruct r as [|r]; [do 9 (destruct c as [|c];
    [first [lia | vm_compute in Hcell; discriminate] |]); lia |]); lia.
Qed.

Lemma solved_board_completes_diagonal_blanks :
  completes (solution (Sudoku_init diagonal_blanks_board))
            (solution (Sudoku_init solved_board)).
Proof.
  split; [apply well_formed_Sudoku_init; [reflexivity | repeat constructor] |].
  split; [apply find_empty_None_filled; vm_compute; reflexivity |].
  split.
  { apply regions_distinct_no_clash. unfold regions_distinct.
    repeat split; apply (bool_decide_unpack _); by vm_compute. }
  split; [apply (bool_decide_unpack _); by vm_compute |].
  intros r c d Hcell.
  do 9 (destruct c as [|c]; [do 9 (destruct r as [|r];
    [first [discriminate Hcell | exact Hcell] |]); discriminate Hcell |]).
  discriminate Hcell.
Qed.

Lemma solve_diagonal_returns_witness :
  ∃ o s', solve 10 (Sudoku_init diagonal_blanks_board) = (Ok o, s').
Proof.
  apply (solve_diagonal_returns 10 (Sudoku_init diagonal_blanks_board)).
  - apply well_formed_Sudoku_init; [reflexivity | repeat constructor].
  - apply diagonal_blanks_no_off_diagonal.
  - lia.
Defined.

Lemma solve_diagonal_complete_witness :
  ∃ g s', solve 10 (Sudoku_init diagonal_blanks_board) = (Ok (Some g), s') ∧
          check s' = Ok true.
Proof.
  apply (solve_diagonal_complete 10 (Sudoku_init diagonal_blanks_board)
           (solution (Sudoku_init solved_board))).
  - apply well_formed_Sudoku_init; [reflexivity | repeat constructor].
  - apply diagonal_blanks_no_off_diagonal.
  - lia.
  - apply solved_board_completes_diagonal_blanks.
Defined.
